(** * Flood fill over an implicit grid: the program [flood_fill.py] in Rocq

    The program counts the safe cells connected to the origin of an
    unbounded grid whose mines are given by a digit-sum rule.  This file
    embeds the program function by function (same names, same order) and
    proves the properties of its specification.

    Conventions of the embedding:
    - Python integers are [Z]; [divmod] by a positive number is
      [Z.div]/[Z.modulo] (both floor).
    - A generator is the list of the values it yields.
    - [floor(log10(r))] is computed by the program in double precision,
      and its value depends on how the platform rounds [math.log10]: it
      is a parameter of the embedding ([floor_log10], class [Log10]).
      Nothing is assumed of it except where a property says so
      ([Accurate]: exact for the numbers below 100000).
    - A call either returns, raises, or runs for ever; the unbounded
      search of [_x_adjust] takes a [fuel] argument and answers
      [OutOfFuel] when the fuel does not suffice.
    - Python sets of [Line] are [gset Line]; [next(iter(s))] may return
      any element of [s], so the driver loop is a step relation. *)

From Stdlib Require Import ZArith Lia List Ascii.
From stdpp Require Import base decidable countable list numbers sorting gmap fin_sets pretty.

Local Open Scope Z_scope.

(** ** Outcomes of a call *)

Inductive exn : Set := AssertionError | IndexError.

Inductive outcome (A : Type) : Type :=
| Returns (a : A)
| Raises (e : exn)
| OutOfFuel.
Arguments Returns {A} a.
Arguments Raises {A} e.
Arguments OutOfFuel {A}.

#[global] Instance outcome_ret : MRet outcome := λ A a, Returns a.

#[global] Instance outcome_bind : MBind outcome := λ A B k m,
  match m with
  | Returns a => k a
  | Raises e => Raises e
  | OutOfFuel => OutOfFuel
  end.

(** ** Mine oracle *)

Module Oracle.

(** [THRESHOLD = 23] *)
Definition THRESHOLD : Z := 23.

(** [floor(log10(remainder))] as the platform computes it, for an int
    [remainder > 0]: [math.log10] converts the int to a double (or splits
    it with [frexp] when it is too large for one), takes the logarithm of
    the C library and rounds, so the floor can be one more or one less
    than the exact logarithm (one more at [10 ** 15 - 1], one less at
    [10 ** 512] with CPython on x86-64).  The function is the platform's. *)
Class Log10 : Type := floor_log10 : Z → Z.

Section WithLog10.
Context {platform : Log10}.

(** [range(n, 0, -1)]: [n, n-1, ..., 1]; empty when [n <= 0]. *)
Fixpoint range_down (n : nat) : list Z :=
  match n with
  | O => []
  | S n' => Z.of_nat n :: range_down n'
  end.

(** The [for] loop of [_get_int_digits] followed by the last [yield]:
    [digit, remainder = divmod(remainder, 10 ** ix); yield digit] for each
    [ix], then [yield remainder]. *)
Fixpoint digits_loop (ixs : list Z) (remainder : Z) : list Z :=
  match ixs with
  | [] => [remainder]
  | ix :: ixs' =>
      let digit := remainder / 10 ^ ix in
      let remainder' := remainder mod 10 ^ ix in
      digit :: digits_loop ixs' remainder'
  end.

Definition _get_int_digits (value : Z) : list Z :=
  let remainder := Z.abs value in
  if remainder =? 0 then [remainder]
  else digits_loop (range_down (Z.to_nat (floor_log10 remainder))) remainder.

(** Python's [sum]: a left fold from 0. *)
Definition sum (l : list Z) : Z := foldl Z.add 0 l.

Definition _check_mine_at_position (x y : Z) : bool :=
  THRESHOLD <? sum (_get_int_digits x ++ _get_int_digits y).

End WithLog10.

End Oracle.

Import Oracle.

(** ** Lines, slices and masks *)

(** [Line = namedtuple('Line', ('x', 'y', 'width'))] *)
Module Line.
Record t : Set := mk { x : Z; y : Z; width : Z }.
End Line.
Abbreviation Line := Line.t.

#[global] Instance Line_eq_dec : EqDecision Line.
Proof. solve_decision. Defined.

#[global] Instance Line_countable : Countable Line.
Proof.
  apply (inj_countable' (λ l, (Line.x l, Line.y l, Line.width l))
           (λ '(a, b, w), Line.mk a b w)).
  now intros [].
Defined.

(** A Python [slice] object. *)
Module Slice.
Record t : Set := mk { start : Z; stop : Z; step : option Z }.
End Slice.
Abbreviation slice := Slice.t.

Definition assert (b : bool) : outcome () :=
  if b then Returns () else Raises AssertionError.

Definition _slice_line (line : Line) (slice_obj : slice) : outcome Line :=
  _ ← assert (bool_decide (Slice.step slice_obj = None));
  let x1_offset := Slice.start slice_obj in
  let x2_offset := Slice.stop slice_obj in
  Returns (Line.mk (Line.x line + x1_offset) (Line.y line)
             (x2_offset - x1_offset)).

(** NumPy, as far as the program uses it.  A masked array over
    [np.arange(n)] is represented by its mask: one boolean per element,
    [true] for a masked element. *)
Module Np.

(** [np.ma.masked_array(np.arange(n))]: [n] unmasked elements, none when
    [n <= 0]. *)
Definition masked_arange (n : Z) : list bool := replicate (Z.to_nat n) false.

(** [arr[offsets] = np.ma.masked] for offsets within the array. *)
Definition set_masked (arr : list bool) (offsets : list Z) : list bool :=
  foldl (λ a offset, <[Z.to_nat offset := true]> a) arr offsets.

(** One pass over the mask from position [pos]; [run] is the start of the
    unmasked run being read, if any. *)
Fixpoint ezclump (pos : Z) (run : option Z) (mask : list bool) : list slice :=
  let flush := match run with
               | Some s => [Slice.mk s pos None]
               | None => []
               end in
  match mask with
  | [] => flush
  | true :: mask' => flush ++ ezclump (pos + 1) None mask'
  | false :: mask' => ezclump (pos + 1) (Some (default pos run)) mask'
  end.

(** [np.ma.clump_unmasked(arr)] on an array whose mask has been written:
    the slices of the maximal runs of unmasked elements, in ascending
    order.  NumPy reads element 0 of the mask first, so an empty array
    raises [IndexError]. *)
Definition clump_unmasked (arr : list bool) : outcome (list slice) :=
  match arr with
  | [] => Raises IndexError
  | _ => Returns (ezclump 0 None arr)
  end.

End Np.

Section Program.
Context {platform : Log10}.

(** [range(n)] *)
Definition range (n : Z) : list Z := seqZ 0 n.

(** ** Scanner *)

Definition _find_safe_clumps_within_line (line : Line) : outcome (list Line) :=
  let arr := Np.masked_arange (Line.width line) in
  let mine_offsets :=
    filter (λ offset,
              _check_mine_at_position (Line.x line + offset) (Line.y line) = true)
      (range (Line.width line)) in
  let arr := Np.set_masked arr mine_offsets in
  slices ← Np.clump_unmasked arr;
  mapM (_slice_line line) slices.

(** ** Normalizer *)

(** [next(x for x in count(start=x, step=step) if mine(x + step, y))] *)
Fixpoint count_search (fuel : nat) (x y step : Z) : outcome Z :=
  match fuel with
  | O => OutOfFuel
  | S fuel' =>
      if _check_mine_at_position (x + step) y then Returns x
      else count_search fuel' (x + step) y step
  end.

Definition _x_adjust (fuel : nat) (x y step : Z) : outcome Z :=
  _ ← assert (negb (_check_mine_at_position x y));
  count_search fuel x y step.

Definition _normalize_line (fuel : nat) (line : Line) : outcome Line :=
  let x1 := Line.x line in
  let x2 := Line.x line + Line.width line in
  let y := Line.y line in
  x1 ← (if negb (_check_mine_at_position x1 y)
         then _x_adjust fuel x1 y (-1) else Returns x1);
  x2 ← (if negb (_check_mine_at_position x2 y)
         then x ← _x_adjust fuel x2 y 1; Returns (x + 1) else Returns x2);
  Returns (Line.mk x1 y (x2 - x1)).

(** ** Neighbour discovery *)

(** [range(start, stop, step)] for a positive step. *)
Definition range3 (start stop step : Z) : list Z :=
  (λ i, start + step * i) <$> seqZ 0 ((stop - start + step - 1) / step).

Definition _find_safe_clumps (fuel : nat) (line : Line) : outcome (list Line) :=
  clumps ← mapM (λ y_offset,
                    parallel_line ← _normalize_line fuel
                      (Line.mk (Line.x line) (Line.y line + y_offset)
                               (Line.width line));
                    _find_safe_clumps_within_line parallel_line)
             (range3 (-1) 3 2);
  Returns (concat clumps).

(** ** Driver *)

(** The state of [main]: the two sets, what has been written to standard
    output, and whether the [while] loop has been left. *)
Record state : Type := State {
  unprocessed_clumps : gset Line;
  processed_clumps : gset Line;
  stdout : list string;
  exited : bool
}.

(** [sum(c.width for c in clumps)] *)
Definition sum_widths (clumps : gset Line) : Z :=
  sum (Line.width <$> elements clumps).

(** The line feed. *)
Definition LF : string := String "010"%char EmptyString.

(** [print(n)] writes the decimal numeral and a newline. *)
Definition print (n : Z) (out : list string) : list string :=
  out ++ [pretty n +:+ LF].

(** The state at the first test of the loop condition. *)
Definition initial (first_clump : Line) : state :=
  State {[ first_clump ]} ∅ [] false.

(** The body of the [while] loop, once [clump] has been picked and its
    neighbours found. *)
Definition loop_body (U P : gset Line) (clump : Line) (found : list Line)
  : gset Line * gset Line :=
  let found_clumps : gset Line := list_to_set found in
  let U := U ∪ (found_clumps ∖ P) in
  let U := U ∖ {[ clump ]} in
  let P := P ∪ {[ clump ]} in
  (U, P).

(** One iteration of the [while] loop, or the exit from it followed by the
    [print].  [next(iter(unprocessed_clumps))] may pick any member. *)
Inductive step : state → state → Prop :=
| step_iteration U P out clump fuel found :
    clump ∈ U →
    _find_safe_clumps fuel clump = Returns found →
    step (State U P out false)
         (State (loop_body U P clump found).1 (loop_body U P clump found).2
                out false)
| step_exit U P out :
    size U = 0%nat →
    step (State U P out false)
         (State U P (print (sum_widths P) out) true).

(** The states [main] can be in. *)
Inductive reachable : state → Prop :=
| reachable_initial fuel first_clump :
    _normalize_line fuel (Line.mk 0 0 0) = Returns first_clump →
    reachable (initial first_clump)
| reachable_step s s' :
    reachable s → step s s' → reachable s'.

End Program.

(** * Vocabulary of the properties *)

(** The specification's digit sum: the sum of the decimal digits of a
    non-negative integer, least significant digit first. *)
Fixpoint digitsum_aux (fuel : nat) (n : Z) : Z :=
  match fuel with
  | O => 0
  | S fuel' => if n <=? 0 then 0 else n mod 10 + digitsum_aux fuel' (n / 10)
  end.

Definition digitsum (n : Z) : Z :=
  digitsum_aux (S (Z.to_nat (Z.log2 n))) n.

(** The specification's oracle. *)
Definition is_mine_spec (x y : Z) : bool :=
  THRESHOLD <? digitsum (Z.abs x) + digitsum (Z.abs y).

(** The exact [floor(log10(r))] for [r > 0], by repeated division. *)
Fixpoint exact_log10_aux (fuel : nat) (r : Z) : Z :=
  match fuel with
  | O => 0
  | S fuel' => if r <? 10 then 0 else 1 + exact_log10_aux fuel' (r / 10)
  end.

Definition exact_log10 (r : Z) : Z :=
  exact_log10_aux (Z.to_nat (Z.log2 r)) r.

(** The platform on which the logarithm is never rounded across an
    integer: the one on which the properties are tried out. *)
Definition ideal : Log10 := exact_log10.

(** A platform that rounds the logarithm of [10 ** 512] down, as CPython
    does on x86-64 ([math.log10(10 ** 512)] is [511.99999999999994]); for
    the other numbers it is taken to be exact. *)
Definition rounding : Log10 :=
  λ r, if r =? 10 ^ 512 then 511 else exact_log10 r.

Section Vocabulary.
Context {platform : Log10}.

(** The platform's [floor(log10(r))] is the exact one at [r]. *)
Definition log10_exact_at (r : Z) : Prop :=
  10 ^ floor_log10 r ≤ r < 10 ^ (floor_log10 r + 1).

(** A platform whose logarithm is exact for the numbers of up to five
    digits, which are all the coordinates that [main] comes to look at. *)
Class Accurate : Prop :=
  log10_accurate : ∀ r, 0 < r < 100000 → log10_exact_at r.

Definition mine_at (row col : Z) : Prop := _check_mine_at_position col row = true.
Definition safe_at (row col : Z) : Prop := _check_mine_at_position col row = false.

(** The left end after normalization: unchanged on a mine, otherwise the
    first column of the safe run that holds the old left end. *)
Definition left_edge (row x1 x1' : Z) : Prop :=
  (mine_at row x1 ∧ x1' = x1)
  ∨ (x1' ≤ x1 ∧ mine_at row (x1' - 1) ∧ ∀ i, x1' ≤ i ≤ x1 → safe_at row i).

(** The right end (one past the last column) after normalization:
    unchanged on a mine, otherwise the first mine to the right. *)
Definition right_edge (row x2 x2' : Z) : Prop :=
  (mine_at row x2 ∧ x2' = x2)
  ∨ (x2 < x2' ∧ mine_at row x2' ∧ ∀ i, x2 ≤ i < x2' → safe_at row i).

(** A line is a fixed point of the normalizer when its right end is a mine
    and its left end is a mine or has a mine to its left. *)
Definition normalized (l : Line) : Prop :=
  (mine_at (Line.y l) (Line.x l) ∨ mine_at (Line.y l) (Line.x l - 1))
  ∧ mine_at (Line.y l) (Line.x l + Line.width l).

(** [a, b) is a maximal run of unmasked positions within [lo, hi). *)
Definition maxrun (mk : Z → bool) (lo hi a b : Z) : Prop :=
(lo ≤ a ∧ a < b ≤ hi)
  ∧ (∀ i, a ≤ i < b → mk i = false)
  ∧ (a = lo ∨ mk (a - 1) = true)
  ∧ (b = hi ∨ mk b = true).

(** The mask list, read from position [pos], is the function [mk]. *)
Definition agree (mask : list bool) (pos : Z) (mk : Z → bool) : Prop :=
  ∀ (i : nat) (b : bool), mask !! i = Some b → b = mk (pos + Z.of_nat i).

(** The mask the scanner builds for a line. *)
Definition line_mask (line : Line) : list bool :=
  Np.set_masked (Np.masked_arange (Line.width line))
    (filter (λ offset,
               _check_mine_at_position (Line.x line + offset) (Line.y line) = true)
       (range (Line.width line))).

Definition line_of_slice (l : Line) (s : slice) : Line :=
  Line.mk (Line.x l + Slice.start s) (Line.y l) (Slice.stop s - Slice.start s).

(** A maximal run of safe cells of its row within the columns [lo, hi). *)
Definition maximal_in (lo hi : Z) (c : Line) : Prop :=
  (lo ≤ Line.x c ∧ 0 < Line.width c ∧ Line.x c + Line.width c ≤ hi)
  ∧ (∀ i, Line.x c ≤ i < Line.x c + Line.width c → safe_at (Line.y c) i)
  ∧ (Line.x c = lo ∨ mine_at (Line.y c) (Line.x c - 1))
  ∧ (Line.x c + Line.width c = hi ∨ mine_at (Line.y c) (Line.x c + Line.width c)).

(** A maximal run of safe cells of its row: a mine on either side. *)
Definition maximal_run (c : Line) : Prop :=
  0 < Line.width c
  ∧ (∀ i, Line.x c ≤ i < Line.x c + Line.width c → safe_at (Line.y c) i)
  ∧ mine_at (Line.y c) (Line.x c - 1)
  ∧ mine_at (Line.y c) (Line.x c + Line.width c).

(** [c'] is a maximal safe run of row [row] with a cell in one of the
    columns [lo, ..., hi] (both included). *)
Definition neighbour_of (lo hi row : Z) (c' : Line) : Prop :=
  Line.y c' = row ∧ maximal_run c'
  ∧ Line.x c' ≤ hi ∧ lo < Line.x c' + Line.width c'.

(** The normalized parallel line of one row and the scan of it. *)
Definition scan_parallel (fuel : nat) (line : Line) (y_offset : Z)
  : outcome (list Line) :=
  parallel_line ← _normalize_line fuel
    (Line.mk (Line.x line) (Line.y line + y_offset) (Line.width line));
  _find_safe_clumps_within_line parallel_line.

Definition spec_scan_row (fuel : nat) (c : Line) (y_offset : Z)
  : outcome (list Line) :=
  found ← _find_safe_clumps_within_line
    (Line.mk (Line.x c - 1) (Line.y c + y_offset) (Line.width c + 2));
  mapM (_normalize_line fuel) found.

(** The cells of a line: [width] cells of row [y] from column [x]. *)
Definition cells (l : Line) : gset (Z * Z) :=
  list_to_set ((λ i, (i, Line.y l)) <$> seqZ (Line.x l) (Line.width l)).

(** The specification's neighbour discovery: scan the span with one cell
    of margin on each side, then normalize every clump found. *)
Definition spec_find_safe_clumps (fuel : nat) (c : Line) : outcome (list Line) :=
  clumps ← mapM (λ y_offset,
                    found ← _find_safe_clumps_within_line
                      (Line.mk (Line.x c - 1) (Line.y c + y_offset)
                               (Line.width c + 2));
                    mapM (_normalize_line fuel) found)
             [-1; 1];
  Returns (concat clumps).

(** The seed: the run of row 0 through the origin. *)
Definition first_clump : Line := Line.mk (-698) 0 1397.

(** [c'] is found from [c]: a maximal run of a row next to that of [c]
    with a cell in the columns of [c] or in the column to its right. *)
Definition neighbours (c c' : Line) : Prop :=
  neighbour_of (Line.x c) (Line.x c + Line.width c) (Line.y c + -1) c'
  ∨ neighbour_of (Line.x c) (Line.x c + Line.width c) (Line.y c + 1) c'.

(** The clumps the driver can come to know, whatever the order. *)
Inductive connected : Line → Prop :=
| connected_first : connected first_clump
| connected_next c c' : connected c → neighbours c c' → connected c'.

Record invariant (s : state) : Prop := Invariant {
  inv_disjoint : unprocessed_clumps s ## processed_clumps s;
  inv_runs : ∀ c, c ∈ unprocessed_clumps s ∪ processed_clumps s → maximal_run c;
  inv_connected : ∀ c, c ∈ unprocessed_clumps s ∪ processed_clumps s → connected c;
  inv_first : first_clump ∈ unprocessed_clumps s ∪ processed_clumps s;
  inv_closed : ∀ c c', c ∈ processed_clumps s → neighbours c c' →
                       c' ∈ unprocessed_clumps s ∪ processed_clumps s;
  inv_stdout : if exited s
               then unprocessed_clumps s = ∅
                    ∧ stdout s = print (sum_widths (processed_clumps s)) []
               else stdout s = []
}.

(** The scanner returns, and what it returns splits the safe cells of the
    span into runs with a mine between any two of them. *)
Definition scanner_partitions (l : Line) : Prop :=
  ∃ cs, _find_safe_clumps_within_line l = Returns cs
    ∧ (∀ (i j : nat) (c1 c2 : Line),
         i ≠ j → cs !! i = Some c1 → cs !! j = Some c2 →
         cells c1 ## cells c2
         ∧ ∃ m, mine_at (Line.y l) m
                ∧ (Line.x c1 + Line.width c1 ≤ m < Line.x c2
                   ∨ Line.x c2 + Line.width c2 ≤ m < Line.x c1))
    ∧ (∀ col row, (col, row) ∈ ⋃ (cells <$> cs)
                  ↔ row = Line.y l
                    ∧ Line.x l ≤ col < Line.x l + Line.width l
                    ∧ safe_at row col)
    ∧ (∀ c col row, c ∈ cs → (col, row) ∈ cells c → safe_at row col).

(** The cells covered by a set of clumps. *)
Definition covered (clumps : gset Line) : gset (Z * Z) :=
  ⋃ (cells <$> elements clumps).

(** The window that holds the whole safe region of the origin: the
    columns and the rows 699 and -699 hold mines only. *)
Definition in_window (c : Line) : Prop :=
  (-698 ≤ Line.y c ≤ 698)
  ∧ -698 ≤ Line.x c ∧ Line.x c + Line.width c ≤ 699.

Definition window : gset Line :=
  list_to_set
    (row ← seqZ (-698) 1397;
     col ← seqZ (-698) 1397;
     w ← seqZ 1 1397;
     [Line.mk col row w]).

(** What is left to do: the clumps of the window not yet processed, and
    the exit. *)
Definition measure (s : state) : nat :=
  size (window ∖ processed_clumps s) + (if exited s then 0 else 1).

(** What the first iteration finds around the seed, on the ideal
    platform. *)
Definition first_found : list Line :=
  Eval vm_compute in
    match _find_safe_clumps (platform := ideal) 2000 first_clump with
    | Returns found => found
    | _ => []
    end.

(** The normalizer fails with an assertion failure on a span that holds a
    mine. *)
Definition normalizer_rejects_mines (fuel : nat) (l : Line) : Prop :=
  (∃ i, Line.x l ≤ i < Line.x l + Line.width l ∧ mine_at (Line.y l) i) →
  _normalize_line fuel l = Raises AssertionError.

(** What one step does to the two sets. *)
Definition step_effect (s s' : state) : Prop :=
  unprocessed_clumps s ## processed_clumps s
  ∧ unprocessed_clumps s' ## processed_clumps s'
  ∧ processed_clumps s ⊆ processed_clumps s'
  ∧ ((exited s' = true
      ∧ unprocessed_clumps s' = unprocessed_clumps s
      ∧ processed_clumps s' = processed_clumps s)
     ∨ (exited s' = false
        ∧ ∃ clump,
            clump ∈ unprocessed_clumps s ∧ (clump ∉ processed_clumps s)
            ∧ processed_clumps s' = processed_clumps s ∪ {[ clump ]}
            ∧ (clump ∉ unprocessed_clumps s')
            ∧ unprocessed_clumps s ∖ {[ clump ]} ⊆ unprocessed_clumps s'
            ∧ ∀ c, c ∈ unprocessed_clumps s' → c ∉ unprocessed_clumps s →
                   (c ∉ processed_clumps s) ∧ (c ∉ processed_clumps s'))).

(** The number a list of decimal digits writes, most significant digit
    first. *)
Definition digits_value (ds : list Z) : Z :=
  foldl (λ acc d, 10 * acc + d) 0 ds.

(** Two cells (column, row) next to each other in a row or in a column. *)
Definition adjacent (p q : Z * Z) : Prop :=
  (q.2 = p.2 ∧ (q.1 = p.1 + 1 ∨ q.1 = p.1 - 1))
  ∨ (q.1 = p.1 ∧ (q.2 = p.2 + 1 ∨ q.2 = p.2 - 1)).

(** The safe region of the origin: the cells reached from the origin
    through safe cells, one step along a row or a column at a time. *)
Inductive region : Z * Z → Prop :=
| region_origin : region (0, 0)
| region_step p q :
    region p → adjacent p q → safe_at q.2 q.1 → region q.

End Vocabulary.

(** * Examples *)

(** The examples run the program on the ideal platform. *)
#[local] Existing Instance ideal | 100.

Example digits_12345 : _get_int_digits 12345 = [1; 2; 3; 4; 5].
Proof. reflexivity. Qed.

Example digits_neg_907 : _get_int_digits (-907) = [9; 0; 7].
Proof. reflexivity. Qed.

Example digits_0 : _get_int_digits 0 = [0].
Proof. reflexivity. Qed.

Example digitsum_345 : digitsum 345 = 12.
Proof. reflexivity. Qed.

Example range3_rows : range3 (-1) 3 2 = [-1; 1].
Proof. reflexivity. Qed.

(** The example of the docstring of [_find_safe_clumps_within_line], on a
    row whose mines are known: row 0 has its first mines at 699 and 789. *)
Example scan_row0 :
  _find_safe_clumps_within_line (Line.mk 697 0 95)
  = Returns [Line.mk 697 0 2; Line.mk 700 0 89; Line.mk 790 0 2].
Proof. vm_compute. reflexivity. Qed.

Example scan_empty : _find_safe_clumps_within_line (Line.mk 0 0 0) = Raises IndexError.
Proof. reflexivity. Qed.

(** * Lemmas *)

(** ** Facts about the oracle *)

Section OracleFacts.
Context {platform : Log10}.


Lemma foldl_add_acc (l : list Z) (a : Z) :
  foldl Z.add a l = a + foldr Z.add 0 l.
Proof.
  revert a. induction l as [|d l IH]; intros a; simpl; [lia|].
  rewrite IH. lia.
Qed.

Lemma sum_foldr (l : list Z) : sum l = foldr Z.add 0 l.
Proof. unfold sum. now rewrite foldl_add_acc. Qed.

Lemma sum_cons (d : Z) (l : list Z) : sum (d :: l) = d + sum l.
Proof. now rewrite !sum_foldr. Qed.

Lemma sum_app (l1 l2 : list Z) : sum (l1 ++ l2) = sum l1 + sum l2.
Proof.
  rewrite !sum_foldr. induction l1 as [|d l1 IH]; simpl; [lia|].
  rewrite IH. lia.
Qed.

Lemma div10_lt_pow2 (n : Z) (f : nat) :
  0 < n → n < 2 ^ Z.of_nat (S f) → n / 10 < 2 ^ Z.of_nat f.
Proof.
  intros Hn Hlt. rewrite Nat2Z.inj_succ, Z.pow_succ_r in Hlt by lia.
  assert (0 < 2 ^ Z.of_nat f) by (apply Z.pow_pos_nonneg; lia).
  Z.div_mod_to_equations. lia.
Qed.

Lemma digitsum_aux_more (f g : nat) (n : Z) :
  n < 2 ^ Z.of_nat f → (f ≤ g)%nat → digitsum_aux g n = digitsum_aux f n.
Proof.
  revert g n. induction f as [|f IH]; intros g n Hn Hfg.
  - simpl in Hn. destruct g as [|g]; simpl; [done|].
    destruct (Z.leb_spec n 0); [done | lia].
  - destruct g as [|g]; [lia|]. simpl.
    destruct (Z.leb_spec n 0) as [|Hpos]; [done|].
    f_equal. apply IH; [|lia]. now apply div10_lt_pow2.
Qed.

Lemma lt_pow2_log2 (n : Z) : n < 2 ^ Z.of_nat (S (Z.to_nat (Z.log2 n))).
Proof.
  destruct (Z.le_gt_cases n 0) as [Hle|Hpos].
  - assert (0 < 2 ^ Z.of_nat (S (Z.to_nat (Z.log2 n)))) by (apply Z.pow_pos_nonneg; lia).
    lia.
  - pose proof (Z.log2_spec n Hpos) as [_ Hlt].
    pose proof (Z.log2_nonneg n).
    rewrite Nat2Z.inj_succ, Z2Nat.id by lia. exact Hlt.
Qed.

Lemma digitsum_aux_stable (f : nat) (n : Z) :
  n < 2 ^ Z.of_nat f → digitsum_aux f n = digitsum n.
Proof.
  intros Hn. unfold digitsum.
  destruct (Nat.le_ge_cases f (S (Z.to_nat (Z.log2 n)))) as [Hle|Hge].
  - symmetry. now apply digitsum_aux_more.
  - apply digitsum_aux_more; [apply lt_pow2_log2 | done].
Qed.

Lemma digitsum_0 : digitsum 0 = 0.
Proof. reflexivity. Qed.

Lemma digitsum_step (n : Z) :
  0 ≤ n → digitsum n = n mod 10 + digitsum (n / 10).
Proof.
  intros Hn. destruct (Z.eq_dec n 0) as [->|Hne]; [reflexivity|].
  unfold digitsum at 1. simpl.
  destruct (Z.leb_spec n 0); [lia|]. f_equal.
  apply digitsum_aux_stable, div10_lt_pow2; [lia | apply lt_pow2_log2].
Qed.

Lemma digitsum_digit (d : Z) : 0 ≤ d < 10 → digitsum d = d.
Proof.
  intros Hd. rewrite digitsum_step by lia.
  rewrite Z.mod_small, Z.div_small by lia. rewrite digitsum_0. lia.
Qed.

Lemma digitsum_nonneg (n : Z) : 0 ≤ digitsum n.
Proof.
  unfold digitsum. generalize (S (Z.to_nat (Z.log2 n))) as f. intros f.
  revert n. induction f as [|f IH]; intros n; simpl; [lia|].
  destruct (Z.leb_spec n 0); [lia|].
  specialize (IH (n / 10)). pose proof (Z.mod_pos_bound n 10). lia.
Qed.

(** The digit sum splits at any power of ten. *)
Lemma digitsum_split (k : nat) (a b : Z) :
  0 ≤ a → 0 ≤ b < 10 ^ Z.of_nat k →
  digitsum (a * 10 ^ Z.of_nat k + b) = digitsum a + digitsum b.
Proof.
  revert b. induction k as [|k IH]; intros b Ha Hb.
  - change (10 ^ Z.of_nat 0) with 1 in *. assert (b = 0) as -> by lia.
    rewrite digitsum_0. replace (a * 1 + 0) with a by lia. lia.
  - rewrite Nat2Z.inj_succ, Z.pow_succ_r in * by lia.
    set (p := 10 ^ Z.of_nat k) in *.
    assert (0 < p) by (apply Z.pow_pos_nonneg; lia).
    rewrite (digitsum_step (a * (10 * p) + b)) by nia.
    rewrite (digitsum_step b) by lia.
    replace ((a * (10 * p) + b) mod 10) with (b mod 10)
      by (replace (a * (10 * p) + b) with (b + (a * p) * 10) by lia;
          now rewrite Z.mod_add by lia).
    replace ((a * (10 * p) + b) / 10) with (a * p + b / 10)
      by (replace (a * (10 * p) + b) with (b + (a * p) * 10) by lia;
          rewrite Z.div_add by lia; lia).
    rewrite IH; [lia | done |].
    Z.div_mod_to_equations. lia.
Qed.

Lemma range_down_succ (n : nat) :
  range_down (S n) = Z.of_nat (S n) :: range_down n.
Proof. reflexivity. Qed.

(** The loop yields digits whose sum is the digit sum of the remainder it
    starts from, provided the first power of ten is large enough. *)
Lemma sum_digits_loop (k : nat) (r : Z) :
  0 ≤ r < 10 ^ Z.of_nat (S k) →
  sum (digits_loop (range_down k) r) = digitsum r.
Proof.
  revert r. induction k as [|k IH]; intros r Hr.
  - simpl digits_loop. rewrite sum_cons. change (sum []) with 0.
    rewrite digitsum_digit; [lia|]. simpl in Hr. lia.
  - rewrite range_down_succ. simpl digits_loop. rewrite sum_cons.
    pose proof (digitsum_split (S k) (r / 10 ^ Z.of_nat (S k))
                  (r mod 10 ^ Z.of_nat (S k))) as Hsplit.
    set (p := 10 ^ Z.of_nat (S k)) in *.
    assert (0 < p) by (apply Z.pow_pos_nonneg; lia).
    pose proof (Z.mod_pos_bound r p ltac:(lia)).
    assert (0 ≤ r / p < 10) as Hdigit.
    { split; [apply Z.div_pos; lia|].
      apply Z.div_lt_upper_bound; [lia|].
      rewrite (Nat2Z.inj_succ (S k)), Z.pow_succ_r in Hr by lia. lia. }
    rewrite IH by done.
    specialize (Hsplit ltac:(lia) ltac:(done)).
    rewrite (digitsum_digit _ Hdigit) in Hsplit.
    rewrite <- Hsplit. f_equal.
    rewrite (Z.mul_comm _ p). symmetry. apply Z.div_mod. lia.
Qed.

(** Starting the loop from a larger power of ten yields leading zeros and
    the same sum. *)
Lemma sum_digits_loop_overestimate (k k' : nat) (r : Z) :
  0 ≤ r < 10 ^ Z.of_nat (S k) → (k ≤ k')%nat →
  sum (digits_loop (range_down k') r) = digitsum r.
Proof.
  intros Hr Hk. apply sum_digits_loop. split; [lia|].
  apply Z.lt_le_trans with (10 ^ Z.of_nat (S k)); [lia|].
  apply Z.pow_le_mono_r; lia.
Qed.

Lemma digitsum_le (n : Z) : 0 ≤ n → digitsum n ≤ n.
Proof.
  unfold digitsum. generalize (S (Z.to_nat (Z.log2 n))) as f. intros f.
  revert n. induction f as [|f IH]; intros n Hn; simpl; [lia|].
  destruct (Z.leb_spec n 0); [lia|].
  specialize (IH (n / 10) ltac:(Z.div_mod_to_equations; lia)).
  Z.div_mod_to_equations. lia.
Qed.

(** From whatever power of ten the loop starts, the first number it yields
    is the quotient by that power and the others are the digits of the
    rest. *)
Lemma sum_digits_loop_any (k : nat) (r : Z) :
  0 ≤ r →
  sum (digits_loop (range_down k) r)
  = r / 10 ^ Z.of_nat k + digitsum (r mod 10 ^ Z.of_nat k).
Proof.
  intros Hr. destruct k as [|k].
  - simpl digits_loop. rewrite sum_cons. change (sum []) with 0.
    change (10 ^ Z.of_nat 0) with 1. rewrite Z.div_1_r, Z.mod_1_r, digitsum_0. lia.
  - rewrite range_down_succ. simpl digits_loop. rewrite sum_cons. f_equal.
    apply sum_digits_loop. apply Z.mod_pos_bound, Z.pow_pos_nonneg; lia.
Qed.

(** So the numbers yielded never add up to less than the digit sum. *)
Lemma sum_digits_loop_ge (k : nat) (r : Z) :
  0 ≤ r → digitsum r ≤ sum (digits_loop (range_down k) r).
Proof.
  intros Hr. rewrite sum_digits_loop_any by done.
  set (p := 10 ^ Z.of_nat k).
  assert (0 < p) by (apply Z.pow_pos_nonneg; lia).
  pose proof (Z.mod_pos_bound r p ltac:(lia)) as Hm.
  assert (0 ≤ r / p) as Hq by (apply Z.div_pos; lia).
  pose proof (digitsum_split k (r / p) (r mod p) Hq Hm) as Hsplit.
  replace (r / p * 10 ^ Z.of_nat k + r mod p) with r in Hsplit
    by (unfold p; rewrite (Z.mul_comm (r / _)); apply Z.div_mod; fold p; lia).
  pose proof (digitsum_le (r / p) Hq). lia.
Qed.

Lemma sum_get_int_digits_ge (value : Z) :
  digitsum (Z.abs value) ≤ sum (_get_int_digits value).
Proof.
  unfold _get_int_digits. cbv zeta.
  destruct (Z.eqb_spec (Z.abs value) 0) as [->|Hne]; [reflexivity|].
  apply sum_digits_loop_ge. lia.
Qed.

(** Where the logarithm is not rounded down, the numbers yielded by
    [_get_int_digits] add up to the digit sum of the absolute value. *)
Lemma sum_get_int_digits (value : Z) :
  value = 0 ∨ Z.abs value < 10 ^ (floor_log10 (Z.abs value) + 1) →
  sum (_get_int_digits value) = digitsum (Z.abs value).
Proof.
  intros Hup. unfold _get_int_digits. cbv zeta.
  destruct (Z.eqb_spec (Z.abs value) 0) as [->|Hne]; [reflexivity|].
  destruct Hup as [->|Hup]; [done|].
  assert (0 < Z.abs value) as Hpos by lia.
  destruct (Z.lt_ge_cases (floor_log10 (Z.abs value)) 0) as [Hneg|Hk].
  - exfalso.
    assert (10 ^ (floor_log10 (Z.abs value) + 1) ≤ 1); [|lia].
    destruct (Z.eq_dec (floor_log10 (Z.abs value)) (-1)) as [->|]; [done|].
    rewrite Z.pow_neg_r; lia.
  - apply sum_digits_loop. split; [lia|].
    rewrite Nat2Z.inj_succ, Z2Nat.id by lia.
    now replace (Z.succ (floor_log10 (Z.abs value)))
      with (floor_log10 (Z.abs value) + 1) by lia.
Qed.

Lemma get_int_digits_opp (x : Z) : _get_int_digits (- x) = _get_int_digits x.
Proof. unfold _get_int_digits. now rewrite Z.abs_opp. Qed.

Lemma digitsum_abs_opp (x : Z) : digitsum (Z.abs (- x)) = digitsum (Z.abs x).
Proof. now rewrite Z.abs_opp. Qed.

(** The oracle compares the threshold with a part for the column plus a
    part for the row. *)
Lemma check_mine_sums (x y : Z) :
  _check_mine_at_position x y
  = (THRESHOLD <? sum (_get_int_digits x) + sum (_get_int_digits y)).
Proof. unfold _check_mine_at_position. now rewrite sum_app. Qed.

(** A mine of the digit-sum rule is a mine for the program, on every
    platform. *)
Lemma check_mine_ge (x y : Z) :
  is_mine_spec x y = true → _check_mine_at_position x y = true.
Proof.
  rewrite check_mine_sums. unfold is_mine_spec. rewrite !Z.ltb_lt.
  pose proof (sum_get_int_digits_ge x). pose proof (sum_get_int_digits_ge y). lia.
Qed.

(** Where the logarithm is not rounded down, the program follows the
    digit-sum rule. *)
Lemma check_mine_spec (x y : Z) :
  x = 0 ∨ Z.abs x < 10 ^ (floor_log10 (Z.abs x) + 1) →
  y = 0 ∨ Z.abs y < 10 ^ (floor_log10 (Z.abs y) + 1) →
  _check_mine_at_position x y = is_mine_spec x y.
Proof.
  intros Hx Hy. rewrite check_mine_sums. unfold is_mine_spec.
  now rewrite !sum_get_int_digits.
Qed.

Lemma check_mine_accurate {accurate : Accurate} (x y : Z) :
  Z.abs x < 100000 → Z.abs y < 100000 →
  _check_mine_at_position x y = is_mine_spec x y.
Proof.
  intros Hx Hy. apply check_mine_spec.
  - destruct (Z.eq_dec x 0) as [|Hne]; [now left | right].
    apply (log10_accurate (Z.abs x)). lia.
  - destruct (Z.eq_dec y 0) as [|Hne]; [now left | right].
    apply (log10_accurate (Z.abs y)). lia.
Qed.

Lemma check_mine_opp_x (x y : Z) :
  _check_mine_at_position (- x) y = _check_mine_at_position x y.
Proof. unfold _check_mine_at_position. now rewrite get_int_digits_opp. Qed.

(** ** The numbers yielded, one by one *)

Lemma foldl_digits (ds : list Z) (acc : Z) :
  foldl (λ acc d, 10 * acc + d) acc ds
  = acc * 10 ^ Z.of_nat (length ds) + digits_value ds.
Proof.
  unfold digits_value. revert acc.
  induction ds as [|d ds IH]; intros acc; [cbn; lia|].
  cbn [foldl length]. rewrite IH, (IH (10 * 0 + d)).
  rewrite Nat2Z.inj_succ, Z.pow_succ_r by lia. lia.
Qed.

Lemma digits_value_cons (d : Z) (ds : list Z) :
  digits_value (d :: ds) = d * 10 ^ Z.of_nat (length ds) + digits_value ds.
Proof.
  unfold digits_value at 1. cbn [foldl]. rewrite foldl_digits. lia.
Qed.

Lemma digits_loop_decimal (k : nat) (r : Z) :
  0 ≤ r < 10 ^ Z.of_nat (S k) →
  length (digits_loop (range_down k) r) = S k
  ∧ Forall (λ d, 0 ≤ d ≤ 9) (digits_loop (range_down k) r)
  ∧ digits_value (digits_loop (range_down k) r) = r.
Proof.
  revert r. induction k as [|k IH]; intros r Hr.
  - cbn [range_down digits_loop length]. change (10 ^ Z.of_nat 1) with 10 in Hr.
    split; [done|]. split; [constructor; [lia | constructor]|].
    rewrite digits_value_cons. cbn. lia.
  - rewrite range_down_succ. cbn [digits_loop length].
    set (p := 10 ^ Z.of_nat (S k)) in *.
    assert (0 < p) by (apply Z.pow_pos_nonneg; lia).
    pose proof (Z.mod_pos_bound r p ltac:(lia)) as Hmod.
    assert (0 ≤ r / p ≤ 9) as Hdigit.
    { split; [apply Z.div_pos; lia|].
      apply Z.lt_succ_r, Z.div_lt_upper_bound; [lia|].
      rewrite (Nat2Z.inj_succ (S k)), Z.pow_succ_r in Hr by lia. fold p in Hr. lia. }
    destruct (IH (r mod p) Hmod) as (Hlen & Hall & Hval).
    split; [now rewrite Hlen|]. split; [now constructor|].
    rewrite digits_value_cons, Hlen, Hval. fold p.
    rewrite (Z.div_mod r p) at 3 by lia. lia.
Qed.

(** From whatever power of ten the loop starts: the first number yielded
    is the quotient by that power, the others are digits, and together
    they write the number. *)
Lemma digits_loop_positional (k : nat) (r : Z) :
  0 ≤ r →
  ∃ rest, digits_loop (range_down k) r = r / 10 ^ Z.of_nat k :: rest
          ∧ length rest = k
          ∧ Forall (λ d, 0 ≤ d ≤ 9) rest
          ∧ digits_value (r / 10 ^ Z.of_nat k :: rest) = r.
Proof.
  intros Hr. destruct k as [|k].
  - exists []. cbn [range_down digits_loop]. change (10 ^ Z.of_nat 0) with 1.
    rewrite Z.div_1_r. split; [done|]. split; [done|]. split; [constructor|].
    rewrite digits_value_cons. cbn. lia.
  - rewrite range_down_succ. cbn [digits_loop].
    set (p := 10 ^ Z.of_nat (S k)) in *.
    assert (0 < p) by (apply Z.pow_pos_nonneg; lia).
    pose proof (Z.mod_pos_bound r p ltac:(lia)) as Hmod.
    destruct (digits_loop_decimal k (r mod p) Hmod) as (Hlen & Hall & Hval).
    exists (digits_loop (range_down k) (r mod p)).
    split; [done|]. split; [done|]. split; [done|].
    rewrite digits_value_cons, Hlen, Hval. fold p.
    rewrite (Z.div_mod r p) at 3 by lia. lia.
Qed.

(** A power of ten whose logarithm is rounded down by one: the first
    number yielded is 10 and the numbers add up to 10, not to 1. *)
Lemma power_of_ten_rounded_down (k : nat) :
  floor_log10 (10 ^ Z.of_nat (S k)) = Z.of_nat k →
  head (_get_int_digits (10 ^ Z.of_nat (S k))) = Some 10
  ∧ sum (_get_int_digits (10 ^ Z.of_nat (S k))) = 10
  ∧ digitsum (Z.abs (10 ^ Z.of_nat (S k))) = 1.
Proof.
  intros Hlog. set (n := 10 ^ Z.of_nat (S k)) in *.
  assert (0 < 10 ^ Z.of_nat k) as Hpos by (apply Z.pow_pos_nonneg; lia).
  assert (n = 10 * 10 ^ Z.of_nat k) as Hten
    by (unfold n; rewrite Nat2Z.inj_succ, Z.pow_succ_r; lia).
  assert (_get_int_digits n = digits_loop (range_down k) n) as Hdigits.
  { unfold _get_int_digits. cbv zeta. rewrite (Z.abs_eq n), Hlog, Nat2Z.id by lia.
    destruct (Z.eqb_spec n 0); [lia | reflexivity]. }
  assert (n / 10 ^ Z.of_nat k = 10) as Hquot
    by (rewrite Hten; apply Z.div_mul; lia).
  split; [|split].
  - destruct (digits_loop_positional k n) as (rest & Hloop & _); [lia|].
    now rewrite Hdigits, Hloop, Hquot.
  - rewrite Hdigits, sum_digits_loop_any, Hquot by lia.
    rewrite Hten at 1. rewrite Z.mod_mul, digitsum_0 by lia. lia.
  - rewrite Z.abs_eq by lia.
    pose proof (digitsum_split (S k) 1 0) as Hsplit. fold n in Hsplit.
    replace (1 * n + 0) with n in Hsplit by lia.
    rewrite Hsplit by lia. reflexivity.
Qed.

End OracleFacts.

(** The ideal platform is accurate. *)
Lemma exact_log10_aux_spec (f : nat) (r : Z) :
  0 < r < 2 ^ Z.of_nat (S f) →
  0 ≤ exact_log10_aux f r ∧ r < 10 ^ (exact_log10_aux f r + 1)
  ∧ 10 ^ exact_log10_aux f r ≤ r.
Proof.
  revert r. induction f as [|f IH]; intros r Hr.
  - simpl in *. lia.
  - simpl exact_log10_aux. destruct (Z.ltb_spec r 10) as [Hlt|Hge].
    + simpl. lia.
    + destruct (IH (r / 10)) as (H0 & Hup & Hlo).
      { split; [Z.div_mod_to_equations; lia|]. apply div10_lt_pow2; lia. }
      set (e := exact_log10_aux f (r / 10)) in *.
      split; [lia|]. split.
      * replace (1 + e + 1) with (Z.succ (e + 1)) by lia.
        rewrite Z.pow_succ_r by lia. Z.div_mod_to_equations. lia.
      * replace (1 + e) with (Z.succ e) by lia.
        rewrite Z.pow_succ_r by lia. Z.div_mod_to_equations. lia.
Qed.

Lemma exact_log10_spec (r : Z) :
  0 < r →
  0 ≤ exact_log10 r ∧ 10 ^ exact_log10 r ≤ r < 10 ^ (exact_log10 r + 1).
Proof.
  intros Hr. unfold exact_log10.
  destruct (exact_log10_aux_spec (Z.to_nat (Z.log2 r)) r) as (? & ? & ?);
    [|lia].
  split; [done | apply lt_pow2_log2].
Qed.

#[local] Instance ideal_accurate : Accurate (platform := ideal).
Proof. intros r Hr. apply exact_log10_spec. lia. Qed.

Section Properties.
Context {platform : Log10}.

(** ** The outcome monad *)

Lemma bind_returns {A B : Type} (m : outcome A) (k : A → outcome B) (b : B) :
  m ≫= k = Returns b ↔ ∃ a, m = Returns a ∧ k a = Returns b.
Proof.
  destruct m as [a| |]; simpl; split; try done; try (intros (? & ? & ?); done).
  - intros Hk. now exists a.
  - intros (a' & [= ->] & Hk). done.
Qed.

Lemma mapM_returns {A B : Type} (f : A → outcome B) (l : list A) (k : list B) :
  mapM f l = Returns k ↔ Forall2 (λ a b, f a = Returns b) l k.
Proof.
  revert k. induction l as [|a l IH]; intros k; simpl.
  - split; [intros [= <-]; constructor | now inversion 1].
  - split.
    + intros (b & Hb & Hrest)%bind_returns.
      apply bind_returns in Hrest as (k' & Hk' & [= <-]).
      constructor; [done | now apply IH].
    + inversion 1 as [|? b ? k' Hb Hk']; subst.
      apply bind_returns. exists b. split; [done|].
      apply bind_returns. exists k'. split; [now apply IH | done].
Qed.

(** ** The boundary walk *)

Lemma mine_or_safe (row col : Z) : mine_at row col ∨ safe_at row col.
Proof. unfold mine_at, safe_at. destruct (_check_mine_at_position col row); auto. Qed.

Lemma mine_not_safe (row col : Z) : mine_at row col → safe_at row col → False.
Proof. unfold mine_at, safe_at. congruence. Qed.

(** Every run of 2000 consecutive columns holds a column whose absolute
    value ends in 999, and such a column is a mine on every row. *)
Lemma ends_in_999_mine (row col : Z) :
  Z.abs col mod 1000 = 999 → mine_at row col.
Proof.
  intros Hmod. unfold mine_at. apply check_mine_ge.
  unfold is_mine_spec, THRESHOLD. apply Z.ltb_lt.
  pose proof (digitsum_nonneg (Z.abs row)).
  pose proof (digitsum_nonneg (Z.abs col / 1000)).
  pose proof (digitsum_split 3 (Z.abs col / 1000) 999) as Hsplit.
  change (10 ^ Z.of_nat 3) with 1000 in Hsplit.
  replace (Z.abs col / 1000 * 1000 + 999) with (Z.abs col) in Hsplit
    by (Z.div_mod_to_equations; lia).
  rewrite Hsplit; [|Z.div_mod_to_equations; lia | lia].
  change (digitsum 999) with 27. lia.
Qed.

Lemma heavy_column (row col : Z) : 24 ≤ digitsum (Z.abs col) → mine_at row col.
Proof.
  intros Hcol. unfold mine_at. apply check_mine_ge.
  unfold is_mine_spec, THRESHOLD. apply Z.ltb_lt.
  pose proof (digitsum_nonneg (Z.abs row)). lia.
Qed.

Lemma heavy_row (row col : Z) : 24 ≤ digitsum (Z.abs row) → mine_at row col.
Proof.
  intros Hrow. unfold mine_at. apply check_mine_ge.
  unfold is_mine_spec, THRESHOLD. apply Z.ltb_lt.
  pose proof (digitsum_nonneg (Z.abs col)). lia.
Qed.

Lemma mine_ahead (row col : Z) :
  ∃ k, 1 ≤ k < 2000 ∧ mine_at row (col + k).
Proof.
  destruct (Z.le_gt_cases 0 (col + 1)) as [Hpos|Hneg].
  - exists (1 + (999 - (col + 1) mod 1000)).
    split; [Z.div_mod_to_equations; lia|].
    apply ends_in_999_mine. Z.div_mod_to_equations. lia.
  - destruct (Z.le_gt_cases (col + 1) (-999)) as [Hfar|Hnear].
    + exists (1 + ((- (col + 1)) mod 1000 + 1) mod 1000).
      split; [Z.div_mod_to_equations; lia|].
      apply ends_in_999_mine. Z.div_mod_to_equations. lia.
    + exists (999 - col). split; [lia|].
      apply ends_in_999_mine. replace (col + (999 - col)) with 999 by lia.
      reflexivity.
Qed.

Lemma mine_at_opp (row col : Z) : mine_at row (- col) ↔ mine_at row col.
Proof. unfold mine_at. now rewrite check_mine_opp_x. Qed.

Lemma mine_behind (row col : Z) :
  ∃ k, 1 ≤ k < 2000 ∧ mine_at row (col - k).
Proof.
  destruct (mine_ahead row (- col)) as (k & Hk & Hmine).
  exists k. split; [done|]. apply mine_at_opp.
  now replace (- (col - k)) with (- col + k) by lia.
Qed.

Section Walk.
Variables (row step : Z).

Lemma count_search_found (fuel k : nat) (col : Z) :
  (k < fuel)%nat →
  mine_at row (col + (Z.of_nat k + 1) * step) →
  (∀ j : nat, (j < k)%nat → safe_at row (col + (Z.of_nat j + 1) * step)) →
  count_search fuel col row step = Returns (col + Z.of_nat k * step).
Proof.
  revert k col. induction fuel as [|fuel IH]; intros k col Hk Hmine Hsafe; [lia|].
  simpl. destruct k as [|k].
  - replace (col + (Z.of_nat 0 + 1) * step) with (col + step) in Hmine by lia.
    unfold mine_at in Hmine. rewrite Hmine. f_equal. lia.
  - pose proof (Hsafe 0%nat ltac:(lia)) as H0.
    replace (col + (Z.of_nat 0 + 1) * step) with (col + step) in H0 by lia.
    unfold safe_at in H0. rewrite H0.
    rewrite (IH k); [f_equal; lia | lia | |].
    + now replace (col + step + (Z.of_nat k + 1) * step)
        with (col + (Z.of_nat (S k) + 1) * step) by lia.
    + intros j Hj. specialize (Hsafe (S j) ltac:(lia)).
      now replace (col + step + (Z.of_nat j + 1) * step)
        with (col + (Z.of_nat (S j) + 1) * step) by lia.
Qed.

Lemma count_search_inv (fuel : nat) (col r : Z) :
  count_search fuel col row step = Returns r →
  ∃ k : nat, (k < fuel)%nat ∧ r = col + Z.of_nat k * step
             ∧ mine_at row (r + step)
             ∧ ∀ j : nat, (j < k)%nat → safe_at row (col + (Z.of_nat j + 1) * step).
Proof.
  revert col. induction fuel as [|fuel IH]; intros col; simpl; [done|].
  destruct (_check_mine_at_position (col + step) row) eqn:Hm.
  - intros [= <-]. exists 0%nat. repeat split; [lia | lia | done | lia].
  - intros (k & Hk & -> & Hmine & Hsafe)%IH. exists (S k).
    split; [lia|]. split; [lia|]. split; [done|].
    intros [|j] Hj.
    + now replace (col + (Z.of_nat 0 + 1) * step) with (col + step) by lia.
    + specialize (Hsafe j ltac:(lia)).
      now replace (col + (Z.of_nat (S j) + 1) * step)
        with (col + step + (Z.of_nat j + 1) * step) by lia.
Qed.

Lemma count_search_no_raise (fuel : nat) (col : Z) (e : exn) :
  count_search fuel col row step ≠ Raises e.
Proof.
  revert col. induction fuel as [|fuel IH]; intros col; simpl; [done|].
  destruct (_check_mine_at_position (col + step) row); [done | apply IH].
Qed.

Lemma count_search_reaches (k fuel : nat) (col : Z) :
  (k < fuel)%nat →
  mine_at row (col + (Z.of_nat k + 1) * step) →
  ∃ r, count_search fuel col row step = Returns r.
Proof.
  revert fuel col. induction k as [|k IH]; intros [|fuel] col Hk Hmine;
    try lia; simpl.
  - replace (col + (Z.of_nat 0 + 1) * step) with (col + step) in Hmine by lia.
    unfold mine_at in Hmine. rewrite Hmine. eauto.
  - destruct (_check_mine_at_position (col + step) row); [eauto|].
    apply IH; [lia|].
    now replace (col + step + (Z.of_nat k + 1) * step)
      with (col + (Z.of_nat (S k) + 1) * step) by lia.
Qed.

End Walk.

(** The walk of [_x_adjust] ends: a mine lies within 2000 columns on
    either side of any column of any row. *)
Lemma count_search_total (fuel : nat) (row col step : Z) :
  (2000 ≤ fuel)%nat → step = 1 ∨ step = -1 →
  ∃ r, count_search fuel col row step = Returns r.
Proof.
  intros Hfuel [-> | ->].
  - destruct (mine_ahead row col) as (k & Hk & Hmine).
    apply (count_search_reaches row 1 (Z.to_nat (k - 1))); [lia|].
    now replace (col + (Z.of_nat (Z.to_nat (k - 1)) + 1) * 1) with (col + k) by lia.
  - destruct (mine_behind row col) as (k & Hk & Hmine).
    apply (count_search_reaches row (-1) (Z.to_nat (k - 1))); [lia|].
    now replace (col + (Z.of_nat (Z.to_nat (k - 1)) + 1) * -1) with (col - k) by lia.
Qed.

Lemma count_search_left (fuel : nat) (row col r : Z) :
  count_search fuel col row (-1) = Returns r →
  r ≤ col ∧ mine_at row (r - 1) ∧ ∀ i, r ≤ i < col → safe_at row i.
Proof.
  intros (k & Hk & -> & Hmine & Hsafe)%count_search_inv.
  split; [lia|]. split; [now replace (col + Z.of_nat k * -1 - 1)
                           with (col + Z.of_nat k * -1 + -1) by lia|].
  intros i Hi. specialize (Hsafe (Z.to_nat (col - i - 1)) ltac:(lia)).
  now replace (col + (Z.of_nat (Z.to_nat (col - i - 1)) + 1) * -1) with i in Hsafe by lia.
Qed.

Lemma count_search_right (fuel : nat) (row col r : Z) :
  count_search fuel col row 1 = Returns r →
  col ≤ r ∧ mine_at row (r + 1) ∧ ∀ i, col < i ≤ r → safe_at row i.
Proof.
  intros (k & Hk & -> & Hmine & Hsafe)%count_search_inv.
  split; [lia|]. split; [done|].
  intros i Hi. specialize (Hsafe (Z.to_nat (i - col - 1)) ltac:(lia)).
  now replace (col + (Z.of_nat (Z.to_nat (i - col - 1)) + 1) * 1) with i in Hsafe by lia.
Qed.

Lemma count_search_here (fuel : nat) (row col step : Z) :
  (0 < fuel)%nat → mine_at row (col + step) →
  count_search fuel col row step = Returns col.
Proof.
  intros Hfuel Hmine. destruct fuel as [|fuel]; [lia|]. simpl.
  unfold mine_at in Hmine. now rewrite Hmine.
Qed.

(** ** What the normalizer returns *)

Lemma left_edge_unique (row x1 a b : Z) :
  left_edge row x1 a → left_edge row x1 b → a = b.
Proof.
  intros [[Hm ->] | (Hle & Hm & Hs)] [[Hm' ->] | (Hle' & Hm' & Hs')]; try done.
  - exfalso. apply (mine_not_safe row x1); [done | apply Hs'; lia].
  - exfalso. apply (mine_not_safe row x1); [done | apply Hs; lia].
  - destruct (Z.lt_trichotomy a b) as [Hlt | [-> | Hgt]]; [|done|]; exfalso.
    + apply (mine_not_safe row (b - 1)); [done | apply Hs; lia].
    + apply (mine_not_safe row (a - 1)); [done | apply Hs'; lia].
Qed.

Lemma right_edge_unique (row x2 a b : Z) :
  right_edge row x2 a → right_edge row x2 b → a = b.
Proof.
  intros [[Hm ->] | (Hle & Hm & Hs)] [[Hm' ->] | (Hle' & Hm' & Hs')]; try done.
  - exfalso. apply (mine_not_safe row x2); [done | apply Hs'; lia].
  - exfalso. apply (mine_not_safe row x2); [done | apply Hs; lia].
  - destruct (Z.lt_trichotomy a b) as [Hlt | [-> | Hgt]]; [|done|]; exfalso.
    + apply (mine_not_safe row a); [done | apply Hs'; lia].
    + apply (mine_not_safe row b); [done | apply Hs; lia].
Qed.

Lemma x_adjust_safe (fuel : nat) (row col step : Z) :
  safe_at row col → _x_adjust fuel col row step = count_search fuel col row step.
Proof. unfold safe_at, _x_adjust. now intros ->. Qed.

Lemma normalize_unfold (fuel : nat) (l : Line) :
  _normalize_line fuel l =
  (x1 ← (if _check_mine_at_position (Line.x l) (Line.y l)
          then Returns (Line.x l)
          else count_search fuel (Line.x l) (Line.y l) (-1));
   x2 ← (if _check_mine_at_position (Line.x l + Line.width l) (Line.y l)
          then Returns (Line.x l + Line.width l)
          else x ← count_search fuel (Line.x l + Line.width l) (Line.y l) 1;
               Returns (x + 1));
   Returns (Line.mk x1 (Line.y l) (x2 - x1))).
Proof.
  unfold _normalize_line, _x_adjust. cbv zeta.
  destruct (_check_mine_at_position (Line.x l) (Line.y l)) eqn:H1;
    destruct (_check_mine_at_position (Line.x l + Line.width l) (Line.y l)) eqn:H2;
    reflexivity.
Qed.

Lemma normalize_inv (fuel : nat) (l l' : Line) :
  _normalize_line fuel l = Returns l' →
  Line.y l' = Line.y l
  ∧ left_edge (Line.y l) (Line.x l) (Line.x l')
  ∧ right_edge (Line.y l) (Line.x l + Line.width l) (Line.x l' + Line.width l').
Proof.
  rewrite normalize_unfold.
  intros (x1 & H1 & (x2 & H2 & [= <-])%bind_returns)%bind_returns.
  cbn [Line.x Line.y Line.width]. split; [done|].
  replace (x1 + (x2 - x1)) with x2 by lia. split.
  - destruct (_check_mine_at_position (Line.x l) (Line.y l)) eqn:Hm.
    + injection H1 as <-. now left.
    + apply count_search_left in H1 as (Hle & Hmine & Hsafe). right.
      repeat split; [done.. |]. intros i Hi.
      destruct (Z.eq_dec i (Line.x l)) as [-> | Hne]; [done | apply Hsafe; lia].
  - destruct (_check_mine_at_position (Line.x l + Line.width l) (Line.y l)) eqn:Hm.
    + injection H2 as <-. now left.
    + apply bind_returns in H2 as (r & Hr & [= <-]).
      apply count_search_right in Hr as (Hle & Hmine & Hsafe). right.
      repeat split; [lia | done |]. intros i Hi.
      destruct (Z.eq_dec i (Line.x l + Line.width l)) as [-> | Hne];
        [done | apply Hsafe; lia].
Qed.

Lemma normalize_no_raise (fuel : nat) (l : Line) (e : exn) :
  _normalize_line fuel l ≠ Raises e.
Proof.
  rewrite normalize_unfold.
  destruct (_check_mine_at_position (Line.x l) (Line.y l)).
  - cbn. destruct (_check_mine_at_position (Line.x l + Line.width l) (Line.y l)); [done|].
    destruct (count_search fuel (Line.x l + Line.width l) (Line.y l) 1) eqn:Hr; try done.
    now apply count_search_no_raise in Hr.
  - destruct (count_search fuel (Line.x l) (Line.y l) (-1)) eqn:Hl; try done;
      [|now apply count_search_no_raise in Hl].
    cbn. destruct (_check_mine_at_position (Line.x l + Line.width l) (Line.y l)); [done|].
    destruct (count_search fuel (Line.x l + Line.width l) (Line.y l) 1) eqn:Hr; try done.
    now apply count_search_no_raise in Hr.
Qed.

Lemma normalize_total (fuel : nat) (l : Line) :
  (2000 ≤ fuel)%nat → ∃ l', _normalize_line fuel l = Returns l'.
Proof.
  intros Hfuel. rewrite normalize_unfold.
  destruct (count_search_total fuel (Line.y l) (Line.x l) (-1)) as [r1 Hr1]; [done | auto |].
  destruct (count_search_total fuel (Line.y l) (Line.x l + Line.width l) 1) as [r2 Hr2];
    [done | auto |].
  rewrite Hr1, Hr2.
  destruct (_check_mine_at_position (Line.x l) (Line.y l));
    destruct (_check_mine_at_position (Line.x l + Line.width l) (Line.y l));
    cbn; eauto.
Qed.

Lemma normalize_normalized (fuel : nat) (l : Line) :
  (0 < fuel)%nat → normalized l → _normalize_line fuel l = Returns l.
Proof.
  intros Hfuel [Hleft Hright]. rewrite normalize_unfold.
  unfold mine_at in Hright. rewrite Hright.
  destruct (_check_mine_at_position (Line.x l) (Line.y l)) eqn:Hm.
  - cbn. destruct l as [a b w]; cbn. f_equal. f_equal. lia.
  - destruct Hleft as [Hleft | Hleft]; [unfold mine_at in Hleft; congruence|].
    rewrite count_search_here by done. cbn.
    destruct l as [a b w]; cbn. f_equal. f_equal. lia.
Qed.

Lemma normalize_result_normalized (fuel : nat) (l l' : Line) :
  _normalize_line fuel l = Returns l' → normalized l'.
Proof.
  intros (Hy & Hl & Hr)%normalize_inv. unfold normalized. rewrite Hy. split.
  - destruct Hl as [[Hm ->] | (_ & Hm & _)]; auto.
  - destruct Hr as [[Hm ->] | (_ & Hm & _)]; auto.
Qed.

Lemma normalized_fixed_point (fuel : nat) (l : Line) :
  _normalize_line fuel l = Returns l → normalized l.
Proof. apply normalize_result_normalized. Qed.

(** Normalizing twice is normalizing once, whatever the fuel and whatever
    the first call does. *)
Lemma normalize_idempotent (fuel : nat) (l : Line) :
  _normalize_line fuel l ≫= _normalize_line fuel = _normalize_line fuel l.
Proof.
  destruct (_normalize_line fuel l) as [l'| |] eqn:Hn; [|done..]. cbn.
  pose proof (normalize_result_normalized _ _ _ Hn) as Hnorm.
  destruct fuel as [|fuel]; [|apply normalize_normalized; [lia | done]].
  (* without fuel the first call returned without walking *)
  rewrite normalize_unfold in Hn. rewrite normalize_unfold.
  cbn in Hn.
  destruct (_check_mine_at_position (Line.x l) (Line.y l)) eqn:H1; [|done].
  destruct (_check_mine_at_position (Line.x l + Line.width l) (Line.y l)) eqn:H2; [|done].
  cbn in Hn. injection Hn as <-. cbn [Line.x Line.y Line.width].
  replace (Line.x l + (Line.x l + Line.width l - Line.x l))
    with (Line.x l + Line.width l) by lia.
  rewrite H1, H2. reflexivity.
Qed.

(** ** What the scanner returns *)

Lemma agree_cons (b : bool) (mask : list bool) (pos : Z) (mk : Z → bool) :
  agree (b :: mask) pos mk → b = mk pos ∧ agree mask (pos + 1) mk.
Proof.
  intros Hag. split.
  - specialize (Hag 0%nat b eq_refl). now replace (pos + Z.of_nat 0) with pos in Hag by lia.
  - intros i c Hi. specialize (Hag (S i) c Hi).
    now replace (pos + 1 + Z.of_nat i) with (pos + Z.of_nat (S i)) by lia.
Qed.

Local Ltac clash :=
  match goal with
  | Ht : ?mk ?t = true, Hf : ∀ i : Z, @?P i → ?mk i = false |- _ =>
      rewrite Hf in Ht by lia; discriminate Ht
  | Ht : ?mk ?t = true, Hf : ?mk ?u = false |- _ =>
      replace u with t in Hf by lia; congruence
  end.

Lemma ezclump_elem (mask : list bool) (pos : Z) (run : option Z)
    (mk : Z → bool) (s : slice) :
  agree mask pos mk →
  (∀ r, run = Some r → r < pos ∧ ∀ i, r ≤ i < pos → mk i = false) →
  s ∈ Np.ezclump pos run mask
  ↔ Slice.step s = None
    ∧ maxrun mk (default pos run) (pos + Z.of_nat (length mask))
        (Slice.start s) (Slice.stop s).
Proof.
  revert pos run. induction mask as [|m mask IH]; intros pos run Hag Hrun.
  - destruct s as [a b st]. cbn [Slice.start Slice.stop Slice.step length].
    destruct run as [r|]; cbn [Np.ezclump from_option]; unfold id.
    + destruct (Hrun r eq_refl) as [Hr Hfree]. rewrite list_elem_of_singleton.
      split.
      * intros [= -> -> ->]. split; [done|]. unfold maxrun. repeat split; auto; lia.
      * intros [-> ((Ha & Hb) & Hf & Hlo & Hhi)].
        assert (a = r) as ->
          by (destruct (Z.eq_dec a r); [done|]; destruct Hlo as [|Hlo]; [done | clash]).
        assert (b = pos) as ->
          by (destruct (Z.eq_dec b pos); [done|]; destruct Hhi as [|Hhi]; [lia | clash]).
        done.
    + rewrite elem_of_nil. split; [done|]. intros [_ ((? & ?) & _)]. lia.
  - apply agree_cons in Hag as [-> Hag].
    specialize (IH (pos + 1)).
    replace (pos + Z.of_nat (length (mk pos :: mask)))
      with (pos + 1 + Z.of_nat (length mask)) by (cbn [length]; lia).
    destruct s as [a b st]. cbn [Slice.start Slice.stop Slice.step] in *.
    destruct (mk pos) eqn:Hpos.
    + (* a masked position closes the current run *)
      specialize (IH None Hag ltac:(done)). cbn [from_option] in IH; unfold id in IH.
      cbn [Np.ezclump]. rewrite elem_of_app, IH. clear IH.
      destruct run as [r|]; cbn [from_option]; unfold id.
      * destruct (Hrun r eq_refl) as [Hr Hfree]. rewrite list_elem_of_singleton.
        split.
        -- intros [[= -> -> ->] | [-> ((Ha & Hb) & Hf & Hlo & Hhi)]].
           ++ split; [done|]. unfold maxrun. repeat split; auto; lia.
           ++ split; [done|]. repeat split; [lia | lia | lia | done | | done].
              right. destruct Hlo as [-> | Hlo]; [|done].
              now replace (pos + 1 - 1) with pos by lia.
        -- intros [-> ((Ha & Hb) & Hf & Hlo & Hhi)].
           destruct (Z.le_gt_cases a pos) as [Hle | Hgt].
           ++ left. assert (a ≠ pos) by (intros ->; clash).
              assert (a = r) as ->
          by (destruct (Z.eq_dec a r); [done|]; destruct Hlo as [|Hlo]; [done | clash]).
              assert (b ≤ pos) by (destruct (Z.le_gt_cases b pos); [done | clash]).
              assert (b = pos) as ->
          by (destruct (Z.eq_dec b pos); [done|]; destruct Hhi as [|Hhi]; [lia | clash]).
              done.
           ++ right. split; [done|]. repeat split; [lia | lia | lia | done | | done].
              destruct Hlo as [-> | Hlo]; [lia | auto].
      * rewrite elem_of_nil. split.
        -- intros [[] | [-> ((Ha & Hb) & Hf & Hlo & Hhi)]].
           split; [done|]. repeat split; [lia | lia | lia | done | | done].
           right. destruct Hlo as [-> | Hlo]; [|done].
           now replace (pos + 1 - 1) with pos by lia.
        -- intros [-> ((Ha & Hb) & Hf & Hlo & Hhi)]. right.
           assert (a ≠ pos) by (intros ->; clash).
           split; [done|]. repeat split; [lia | lia | lia | done | | done].
           destruct Hlo as [-> | Hlo]; [lia | auto].
    + (* an unmasked position opens or extends a run *)
      cbn [Np.ezclump]. rewrite (IH (Some (default pos run))); [done | done |].
      intros r [= <-]. destruct run as [r|]; cbn [from_option]; unfold id.
      * destruct (Hrun r eq_refl) as [Hr Hfree]. split; [lia|].
        intros i Hi. destruct (Z.eq_dec i pos) as [-> | Hne]; [done | apply Hfree; lia].
      * split; [lia|]. intros i Hi. now replace i with pos by lia.
Qed.

Lemma ezclump_sorted (mask : list bool) (pos : Z) (run : option Z) :
  (∀ r, run = Some r → r < pos) →
  StronglySorted (λ s1 s2, Slice.stop s1 < Slice.start s2)
    (Np.ezclump pos run mask)
  ∧ ∀ s, s ∈ Np.ezclump pos run mask → default pos run ≤ Slice.start s.
Proof.
  revert pos run. induction mask as [|m mask IH]; intros pos run Hrun.
  - destruct run as [r|]; cbn [Np.ezclump from_option]; unfold id.
    + split; [repeat constructor|]. intros s ->%list_elem_of_singleton. cbn. lia.
    + split; [constructor|]. now intros s ?%elem_of_nil.
  - destruct m; cbn [Np.ezclump].
    + destruct (IH (pos + 1) None ltac:(done)) as [Hsorted Hge].
      cbn [from_option] in Hge; unfold id in Hge. destruct run as [r|]; cbn [from_option app]; unfold id.
      * specialize (Hrun r eq_refl). split.
        -- constructor; [done|]. apply Forall_forall. intros s Hs.
           apply Hge in Hs. cbn. lia.
        -- intros s [-> | Hs]%elem_of_cons; [cbn; lia|]. apply Hge in Hs. lia.
      * split; [done|]. intros s Hs. apply Hge in Hs. lia.
    + destruct (IH (pos + 1) (Some (default pos run))) as [Hsorted Hge]; [|done].
      intros r [= <-]. destruct run as [r|]; cbn [from_option]; unfold id;
        [specialize (Hrun r eq_refl)|]; lia.
Qed.

Lemma ezclump_step_none (mask : list bool) (pos : Z) (run : option Z) (s : slice) :
  s ∈ Np.ezclump pos run mask → Slice.step s = None.
Proof.
  revert pos run. induction mask as [|m mask IH]; intros pos run.
  - destruct run; cbn [Np.ezclump]; [now intros ->%list_elem_of_singleton|].
    now intros ?%elem_of_nil.
  - destruct m; cbn [Np.ezclump]; [|apply IH].
    intros [Hs | Hs]%elem_of_app; [|now apply IH in Hs].
    destruct run; [now apply list_elem_of_singleton in Hs as ->|].
    now apply elem_of_nil in Hs.
Qed.

(** Writing the mask. *)
Lemma set_masked_length (offsets : list Z) (arr : list bool) :
  length (Np.set_masked arr offsets) = length arr.
Proof.
  revert arr. induction offsets as [|o offsets IH]; intros arr; [done|].
  cbn. rewrite IH. apply length_insert.
Qed.

Lemma set_masked_lookup (offsets : list Z) (arr : list bool) (i : nat) (b0 : bool) :
  (∀ o, o ∈ offsets → 0 ≤ o) →
  arr !! i = Some b0 →
  Np.set_masked arr offsets !! i
  = Some (b0 || bool_decide (Z.of_nat i ∈ offsets)).
Proof.
  revert arr b0. induction offsets as [|o offsets IH]; intros arr b0 Hpos Hi.
  - cbn. rewrite Hi. f_equal. rewrite bool_decide_eq_false_2; [|apply not_elem_of_nil].
    now rewrite orb_false_r.
  - cbn. assert (0 ≤ o) by (apply Hpos; left).
    assert (i < length arr)%nat by (now apply lookup_lt_Some in Hi).
    destruct (decide (i = Z.to_nat o)) as [-> | Hne].
    + rewrite (IH _ true); [| intros; apply Hpos; now right
                            | now apply list_lookup_insert_eq].
      rewrite (bool_decide_eq_true_2 (Z.of_nat (Z.to_nat o) ∈ o :: offsets));
        [now rewrite orb_true_r|].
      rewrite Z2Nat.id by done. left.
    + rewrite (IH _ b0); [| intros; apply Hpos; now right
                          | now rewrite list_lookup_insert_ne].
      f_equal. f_equal. apply bool_decide_ext. rewrite elem_of_cons.
      split; [auto|]. intros [Heq | ?]; [|done]. lia.
Qed.

Lemma line_mask_length (l : Line) :
  length (line_mask l) = Z.to_nat (Line.width l).
Proof.
  unfold line_mask. rewrite set_masked_length. apply length_replicate.
Qed.

Lemma line_mask_agree (l : Line) :
  agree (line_mask l) 0
    (λ offset, _check_mine_at_position (Line.x l + offset) (Line.y l)).
Proof.
  intros i b Hi.
  assert (i < Z.to_nat (Line.width l))%nat as Hlt
    by (rewrite <- line_mask_length; now apply lookup_lt_Some in Hi).
  unfold line_mask in Hi.
  rewrite (set_masked_lookup _ _ i false) in Hi.
  - injection Hi as <-. cbn [orb]. replace (0 + Z.of_nat i) with (Z.of_nat i) by lia.
    destruct (_check_mine_at_position (Line.x l + Z.of_nat i) (Line.y l)) eqn:Hm.
    + apply bool_decide_eq_true_2, list_elem_of_filter. split; [done|].
      apply elem_of_seqZ. lia.
    + apply bool_decide_eq_false_2. rewrite list_elem_of_filter. intros [? _]. congruence.
  - intros o [_ Ho%elem_of_seqZ]%list_elem_of_filter. lia.
  - now apply lookup_replicate_2.
Qed.

Lemma slice_line_returns (l : Line) (s : slice) :
  Slice.step s = None → _slice_line l s = Returns (line_of_slice l s).
Proof. unfold _slice_line. intros ->. reflexivity. Qed.

Lemma mapM_slice_line (l : Line) (slices : list slice) :
  (∀ s, s ∈ slices → Slice.step s = None) →
  mapM (_slice_line l) slices = Returns (line_of_slice l <$> slices).
Proof.
  intros Hstep. apply mapM_returns.
  induction slices as [|s slices IH]; [constructor|].
  cbn. constructor.
  - apply slice_line_returns, Hstep. left.
  - apply IH. intros s' Hs'. apply Hstep. now right.
Qed.

Lemma scan_unfold (l : Line) :
  _find_safe_clumps_within_line l
  = Np.clump_unmasked (line_mask l) ≫= mapM (_slice_line l).
Proof. reflexivity. Qed.

Lemma scan_nonempty (l : Line) :
  0 < Line.width l →
  _find_safe_clumps_within_line l
  = Returns (line_of_slice l <$> Np.ezclump 0 None (line_mask l)).
Proof.
  intros Hw. rewrite scan_unfold.
  pose proof (line_mask_length l) as Hlen.
  destruct (line_mask l) as [|m mask] eqn:Hmask; [cbn in Hlen; lia|].
  unfold Np.clump_unmasked. cbn [mbind outcome_bind].
  apply mapM_slice_line. intros s Hs. now apply ezclump_step_none in Hs.
Qed.

Lemma scan_empty_span (l : Line) :
  Line.width l ≤ 0 → _find_safe_clumps_within_line l = Raises IndexError.
Proof.
  intros Hw. rewrite scan_unfold.
  pose proof (line_mask_length l) as Hlen.
  destruct (line_mask l) as [|m mask]; [done|]. cbn in Hlen. lia.
Qed.

Lemma scan_returns_inv (l : Line) (cs : list Line) :
  _find_safe_clumps_within_line l = Returns cs →
  0 < Line.width l ∧ cs = line_of_slice l <$> Np.ezclump 0 None (line_mask l).
Proof.
  intros Hscan. destruct (Z.le_gt_cases (Line.width l) 0) as [Hle | Hgt].
  - rewrite scan_empty_span in Hscan by done. discriminate.
  - split; [lia|]. rewrite scan_nonempty in Hscan by lia. congruence.
Qed.

Lemma scan_elem (l : Line) (cs : list Line) (c : Line) :
  _find_safe_clumps_within_line l = Returns cs →
  c ∈ cs ↔ Line.y c = Line.y l
           ∧ maximal_in (Line.x l) (Line.x l + Line.width l) c.
Proof.
  intros [Hw ->]%scan_returns_inv. rewrite list_elem_of_fmap.
  pose proof (line_mask_agree l) as Hag.
  pose proof (line_mask_length l) as Hlen.
  set (mk := λ offset, _check_mine_at_position (Line.x l + offset) (Line.y l)) in *.
  assert (∀ i, mk (i - Line.x l) = _check_mine_at_position i (Line.y l)) as Hmk
    by (intros i; unfold mk; f_equal; lia).
  split.
  - intros (s & -> & Hs). apply (ezclump_elem _ _ _ mk) in Hs; [|done..].
    destruct Hs as (_ & (Ha & Hb) & Hf & Hlo & Hhi). cbn [from_option] in *.
    unfold id in *. rewrite Hlen in *.
    unfold line_of_slice, maximal_in. cbn [Line.x Line.y Line.width].
    split; [done|]. split; [lia|]. split; [|split].
    + intros i Hi. unfold safe_at. rewrite <- Hmk. apply Hf. lia.
    + destruct Hlo as [-> | Hlo]; [left; lia | right].
      unfold mine_at. rewrite <- Hmk, <- Hlo. f_equal. lia.
    + destruct Hhi as [-> | Hhi]; [left; lia | right].
      unfold mine_at. rewrite <- Hmk, <- Hhi. f_equal. lia.
  - intros (Hy & (Ha & Hb & Hc) & Hf & Hlo & Hhi).
    exists (Slice.mk (Line.x c - Line.x l) (Line.x c - Line.x l + Line.width c) None).
    split.
    + unfold line_of_slice. destruct c as [a b w]. cbn in *. subst b. f_equal; lia.
    + apply (ezclump_elem _ _ _ mk); [done.. |]. cbn [Slice.start Slice.stop Slice.step].
      split; [done|]. cbn [from_option]. unfold id. rewrite Hlen.
      rewrite <- Hy in Hmk. split; [lia|]. split; [|split].
      * intros i Hi. replace i with ((i + Line.x l) - Line.x l) by lia.
        rewrite Hmk. apply Hf. lia.
      * destruct Hlo as [-> | Hlo]; [left; lia | right].
        rewrite <- Hlo. rewrite <- Hmk. f_equal. lia.
      * destruct Hhi as [Hhi | Hhi]; [left; lia | right].
        rewrite <- Hhi. rewrite <- Hmk. f_equal. lia.
Qed.

Lemma scan_sorted (l : Line) (cs : list Line) :
  _find_safe_clumps_within_line l = Returns cs →
  StronglySorted (λ c1 c2, Line.x c1 + Line.width c1 < Line.x c2) cs.
Proof.
  intros [Hw ->]%scan_returns_inv.
  destruct (ezclump_sorted (line_mask l) 0 None ltac:(done)) as [Hsorted _].
  induction Hsorted as [|s slices Hs IH Hall]; [constructor|].
  rewrite fmap_cons. constructor; [done|].
  apply Forall_fmap. eapply Forall_impl; [exact Hall|].
  intros s' Hlt. unfold compose, line_of_slice. cbn. cbn in Hlt. lia.
Qed.

Lemma maximal_run_normalized (c : Line) : maximal_run c → normalized c.
Proof. intros (_ & _ & Hl & Hr). split; auto. Qed.

Lemma maximal_in_normalized (l c : Line) :
  normalized l → Line.y c = Line.y l →
  maximal_in (Line.x l) (Line.x l + Line.width l) c → maximal_run c.
Proof.
  intros [Hleft Hright] Hy ((Ha & Hb & Hc) & Hf & Hlo & Hhi).
  rewrite <- Hy in *. split; [done|]. split; [done|]. split.
  - destruct Hlo as [Hlo | Hlo]; [|done]. rewrite Hlo.
    destruct Hleft as [Hleft | Hleft]; [|done].
    exfalso. apply (mine_not_safe _ _ Hleft). apply Hf. lia.
  - destruct Hhi as [Hhi | Hhi]; [|done]. now rewrite Hhi.
Qed.

(** Scanning a normalized line yields maximal runs of the row. *)
Lemma scan_normalized (l : Line) (cs : list Line) (c : Line) :
  normalized l → _find_safe_clumps_within_line l = Returns cs →
  c ∈ cs → maximal_run c.
Proof.
  intros Hnorm Hscan Hc. apply (scan_elem _ _ _ Hscan) in Hc as [Hy Hmax].
  now apply (maximal_in_normalized l).
Qed.

(** ** What neighbour discovery returns *)

Lemma find_safe_clumps_returns (fuel : nat) (c : Line) (found : list Line) :
  _find_safe_clumps fuel c = Returns found
  ↔ ∃ above below, scan_parallel fuel c (-1) = Returns above
                   ∧ scan_parallel fuel c 1 = Returns below
                   ∧ found = above ++ below.
Proof.
  unfold _find_safe_clumps. change (range3 (-1) 3 2) with [-1; 1].
  split.
  - intros (clumps & Hm & [= <-])%bind_returns.
    apply mapM_returns in Hm.
    inversion Hm as [|? above ? rest Ha Hrest]; subst.
    inversion Hrest as [|? below ? rest' Hb Hnil]; subst.
    inversion Hnil; subst.
    exists above, below. cbn. now rewrite app_nil_r.
  - intros (above & below & Ha & Hb & ->).
    apply bind_returns. exists [above; below]. split.
    + apply mapM_returns. repeat constructor; done.
    + cbn. now rewrite app_nil_r.
Qed.

Lemma normalize_parallel (fuel : nat) (a row w : Z) (p : Line) :
  _normalize_line fuel (Line.mk a row w) = Returns p →
  Line.y p = row ∧ normalized p
  ∧ left_edge row a (Line.x p)
  ∧ right_edge row (a + w) (Line.x p + Line.width p).
Proof.
  intros Hn. pose proof (normalize_result_normalized _ _ _ Hn) as Hnorm.
  apply normalize_inv in Hn as (Hy & Hl & Hr). cbn in *. done.
Qed.

Lemma edges_width (row a w x' e' : Z) :
  left_edge row a x' → right_edge row (a + w) e' → x' ≤ a ∧ a + w ≤ e'.
Proof. intros [[_ ->] | (? & _)] [[_ ->] | (? & _)]; lia. Qed.

Local Ltac mine_clash :=
  match goal with
  | Hm : mine_at ?r ?t, Hs : ∀ i : Z, @?P i → safe_at ?r i |- _ =>
      exfalso; apply (mine_not_safe r t Hm); apply Hs; lia
  end.

(** The scan of the normalized parallel line finds exactly the maximal
    runs of that row with a cell in the columns [a, ..., a + w]. *)
Lemma scan_parallel_elem (fuel : nat) (c : Line) (y_offset : Z)
    (cs : list Line) (c' : Line) :
  0 < Line.width c →
  scan_parallel fuel c y_offset = Returns cs →
  c' ∈ cs ↔ neighbour_of (Line.x c) (Line.x c + Line.width c)
              (Line.y c + y_offset) c'.
Proof.
  intros Hw (p & Hn & Hscan)%bind_returns.
  apply normalize_parallel in Hn as (Hy & Hnorm & Hl & Hr).
  rewrite (scan_elem _ _ _ Hscan), Hy. unfold neighbour_of.
  set (row := Line.y c + y_offset) in *.
  set (a := Line.x c) in *. set (w := Line.width c) in *.
  split.
  - intros [Hrow Hmax]. split; [done|].
    assert (maximal_run c') as Hrun
      by (apply (maximal_in_normalized p); [done | congruence | done]).
    split; [done|].
    destruct Hmax as ((Ha & Hb & Hc) & _).
    destruct Hrun as (_ & Hf & Hlm & Hrm). rewrite Hrow in *.
    split.
    + destruct Hr as [[Hm Heq] | (Hlt & Hm & Hs)]; [lia|].
      destruct (Z.le_gt_cases (Line.x c') (a + w)); [done | mine_clash].
    + destruct Hl as [[Hm Heq] | (Hle & Hm & Hs)]; [lia|].
      destruct (Z.lt_ge_cases a (Line.x c' + Line.width c')); [done | mine_clash].
  - intros (Hrow & Hrun & Hhi & Hlo). split; [done|].
    destruct Hrun as (Hpos & Hf & Hlm & Hrm). rewrite Hrow in *.
    unfold maximal_in. rewrite Hrow.
    assert (Line.x p ≤ Line.x c') as Hleft.
    { destruct (Z.le_gt_cases (Line.x p) (Line.x c')); [done|].
      destruct Hl as [[Hm Heq] | (Hle & Hm & Hs)]; mine_clash. }
    assert (Line.x c' + Line.width c' ≤ Line.x p + Line.width p) as Hright.
    { destruct (Z.le_gt_cases (Line.x c' + Line.width c')
                  (Line.x p + Line.width p)); [done|].
      destruct Hr as [[Hm Heq] | (Hlt & Hm & Hs)]; mine_clash. }
    repeat split; auto.
Qed.

Lemma scan_parallel_total (fuel : nat) (c : Line) (y_offset : Z) :
  (2000 ≤ fuel)%nat → 0 < Line.width c →
  ∃ cs, scan_parallel fuel c y_offset = Returns cs.
Proof.
  intros Hfuel Hw. unfold scan_parallel.
  destruct (normalize_total fuel
              (Line.mk (Line.x c) (Line.y c + y_offset) (Line.width c)) Hfuel)
    as [p Hp].
  rewrite Hp. cbn [mbind outcome_bind].
  apply normalize_parallel in Hp as (_ & _ & Hl & Hr).
  destruct (edges_width _ _ _ _ _ Hl Hr).
  rewrite scan_nonempty by lia. eauto.
Qed.

Lemma find_safe_clumps_elem (fuel : nat) (c : Line) (found : list Line) (c' : Line) :
  0 < Line.width c →
  _find_safe_clumps fuel c = Returns found →
  c' ∈ found
  ↔ neighbour_of (Line.x c) (Line.x c + Line.width c) (Line.y c + -1) c'
    ∨ neighbour_of (Line.x c) (Line.x c + Line.width c) (Line.y c + 1) c'.
Proof.
  intros Hw (above & below & Ha & Hb & ->)%find_safe_clumps_returns.
  rewrite elem_of_app.
  now rewrite (scan_parallel_elem _ _ _ _ _ Hw Ha),
    (scan_parallel_elem _ _ _ _ _ Hw Hb).
Qed.

Lemma find_safe_clumps_total (fuel : nat) (c : Line) :
  (2000 ≤ fuel)%nat → 0 < Line.width c →
  ∃ found, _find_safe_clumps fuel c = Returns found.
Proof.
  intros Hfuel Hw.
  destruct (scan_parallel_total fuel c (-1) Hfuel Hw) as [above Ha].
  destruct (scan_parallel_total fuel c 1 Hfuel Hw) as [below Hb].
  exists (above ++ below). apply find_safe_clumps_returns. eauto.
Qed.

(** ** The specification's neighbour discovery *)

(** The oracle is a sum of a column part and a row part, so two rows
    cannot order two columns differently. *)
Lemma no_crossing (r r' a b : Z) :
  mine_at r a → safe_at r b → safe_at r' a → mine_at r' b → False.
Proof.
  unfold mine_at, safe_at. rewrite !check_mine_sums.
  rewrite !Z.ltb_lt, !Z.ltb_ge. lia.
Qed.

Lemma Forall2_elem_of_r {A B : Type} (R : A → B → Prop) (l : list A)
    (k : list B) (b : B) :
  Forall2 R l k → b ∈ k ↔ ∃ a, a ∈ l ∧ ∃ i : nat, l !! i = Some a ∧ k !! i = Some b.
Proof.
  intros HF. split.
  - intros (i & Hi)%list_elem_of_lookup.
    destruct (Forall2_lookup_r _ _ _ _ _ HF Hi) as (a & Ha & _).
    exists a. split; [now apply list_elem_of_lookup_2 in Ha | eauto].
  - intros (a & _ & i & _ & Hi). now apply list_elem_of_lookup_2 in Hi.
Qed.

Lemma normalize_of_run (fuel : nat) (c0 n : Line) :
  0 < Line.width c0 →
  (∀ i, Line.x c0 ≤ i < Line.x c0 + Line.width c0 → safe_at (Line.y c0) i) →
  _normalize_line fuel c0 = Returns n →
  Line.y n = Line.y c0 ∧ maximal_run n
  ∧ Line.x n ≤ Line.x c0
  ∧ Line.x c0 + Line.width c0 ≤ Line.x n + Line.width n.
Proof.
  intros Hw Hf (Hy & Hl & Hr)%normalize_inv. split; [done|].
  destruct Hl as [[Hm _] | (Hle & Hlm & Hls)]; [mine_clash|].
  unfold maximal_run. rewrite Hy.
  destruct Hr as [[Hm Heq] | (Hlt & Hrm & Hrs)].
  - rewrite Heq. repeat split; [lia | | done | done | done | lia].
    intros i Hi. destruct (Z.le_gt_cases i (Line.x c0)); [apply Hls | apply Hf]; lia.
  - repeat split; [lia | | done | done | done | lia].
    intros i Hi. destruct (Z.le_gt_cases i (Line.x c0)); [apply Hls; lia|].
    destruct (Z.lt_ge_cases i (Line.x c0 + Line.width c0)); [apply Hf | apply Hrs]; lia.
Qed.

Lemma normalize_to_run (fuel : nat) (c0 n : Line) :
  (2000 ≤ fuel)%nat →
  Line.y c0 = Line.y n → maximal_run n →
  Line.x n ≤ Line.x c0 → 0 < Line.width c0 →
  Line.x c0 + Line.width c0 ≤ Line.x n + Line.width n →
  _normalize_line fuel c0 = Returns n.
Proof.
  intros Hfuel Hy (Hpos & Hf & Hlm & Hrm) Hlo Hw Hhi.
  destruct (normalize_total fuel c0 Hfuel) as [n' Hn']. rewrite Hn'. f_equal.
  apply normalize_inv in Hn' as (Hy' & Hl & Hr). rewrite Hy in *.
  assert (Line.x n' = Line.x n) as Hx.
  { apply (left_edge_unique _ _ _ _ Hl). right.
    repeat split; [done | done |]. intros i Hi. apply Hf. lia. }
  assert (Line.x n' + Line.width n' = Line.x n + Line.width n) as He.
  { apply (right_edge_unique _ _ _ _ Hr).
    destruct (Z.eq_dec (Line.x c0 + Line.width c0) (Line.x n + Line.width n))
      as [Heq | Hne].
    - left. now rewrite Heq.
    - right. repeat split; [lia | done |]. intros i Hi. apply Hf. lia. }
  destruct n as [a b w], n' as [a' b' w']. cbn in *. f_equal; lia.
Qed.

(** Scanning the span with a margin and normalizing finds exactly the
    maximal runs of the row with a cell in the columns
    [x - 1, ..., x + width]. *)
Lemma spec_scan_row_elem (fuel : nat) (c : Line) (y_offset : Z)
    (ns : list Line) (n : Line) :
  (2000 ≤ fuel)%nat → 0 < Line.width c →
  spec_scan_row fuel c y_offset = Returns ns →
  n ∈ ns ↔ neighbour_of (Line.x c - 1) (Line.x c + Line.width c)
             (Line.y c + y_offset) n.
Proof.
  intros Hfuel Hw (cs0 & Hscan & HF%mapM_returns)%bind_returns.
  pose proof (λ c', scan_elem _ _ c' Hscan) as Hcs0.
  cbn [Line.x Line.y Line.width] in Hcs0.
  set (row := Line.y c + y_offset) in *.
  set (a := Line.x c) in *. set (w := Line.width c) in *.
  split.
  - intros (i & Hi)%list_elem_of_lookup.
    destruct (Forall2_lookup_r _ _ _ _ _ HF Hi) as (c0 & Hc0 & Hn).
    apply list_elem_of_lookup_2, Hcs0 in Hc0
      as (Hy0 & (Hlo0 & Hw0 & Hhi0) & Hf0 & _).
    apply normalize_of_run in Hn as (Hy & Hrun & Hlo & Hhi); [|done..].
    unfold neighbour_of. split; [congruence|]. split; [done|]. lia.
  - intros (Hy & Hrun & Hhi & Hlo).
    set (c0 := Line.mk (Z.max (Line.x n) (a - 1)) row
                 (Z.min (Line.x n + Line.width n) (a + w + 1)
                  - Z.max (Line.x n) (a - 1))).
    assert (c0 ∈ cs0) as (i & Hi)%list_elem_of_lookup.
    { apply Hcs0. split; [done|].
      destruct Hrun as (Hpos & Hf & Hlm & Hrm). rewrite Hy in *.
      unfold maximal_in, c0. cbn [Line.x Line.y Line.width].
      split; [lia|]. split; [intros j Hj; apply Hf; lia|]. split.
      - destruct (Z.le_gt_cases (Line.x n) (a - 1)); [left; lia | right].
        now replace (Z.max (Line.x n) (a - 1)) with (Line.x n) by lia.
      - destruct (Z.le_gt_cases (a + w + 1) (Line.x n + Line.width n));
          [left; lia | right].
        now replace (Z.max (Line.x n) (a - 1)
                     + (Z.min (Line.x n + Line.width n) (a + w + 1)
                        - Z.max (Line.x n) (a - 1)))
          with (Line.x n + Line.width n) by lia. }
    destruct (Forall2_lookup_l _ _ _ _ _ HF Hi) as (n' & Hn' & Hnorm).
    assert (_normalize_line fuel c0 = Returns n) as Hn.
    { pose proof Hrun as (Hpos & _). apply normalize_to_run; try done;
        unfold c0; cbn [Line.x Line.y Line.width]; lia. }
    assert (n' = n) as -> by congruence.
    now apply list_elem_of_lookup_2 in Hn'.
Qed.

Lemma spec_scan_row_total (fuel : nat) (c : Line) (y_offset : Z) :
  (2000 ≤ fuel)%nat → 0 < Line.width c →
  ∃ ns, spec_scan_row fuel c y_offset = Returns ns.
Proof.
  intros Hfuel Hw. unfold spec_scan_row.
  rewrite scan_nonempty by (cbn; lia). cbn [mbind outcome_bind].
  generalize (line_of_slice
                (Line.mk (Line.x c - 1) (Line.y c + y_offset) (Line.width c + 2))
              <$> Np.ezclump 0 None
                    (line_mask (Line.mk (Line.x c - 1) (Line.y c + y_offset)
                                  (Line.width c + 2)))).
  intros cs. induction cs as [|c0 cs [ns IH]].
  - exists []. reflexivity.
  - destruct (normalize_total fuel c0 Hfuel) as [n Hn].
    exists (n :: ns). apply mapM_returns. constructor; [done|].
    now apply mapM_returns.
Qed.

Lemma spec_find_safe_clumps_returns (fuel : nat) (c : Line) (found : list Line) :
  spec_find_safe_clumps fuel c = Returns found
  ↔ ∃ above below, spec_scan_row fuel c (-1) = Returns above
                   ∧ spec_scan_row fuel c 1 = Returns below
                   ∧ found = above ++ below.
Proof.
  unfold spec_find_safe_clumps. split.
  - intros (clumps & Hm & [= <-])%bind_returns.
    apply mapM_returns in Hm.
    inversion Hm as [|? above ? rest Ha Hrest]; subst.
    inversion Hrest as [|? below ? rest' Hb Hnil]; subst.
    inversion Hnil; subst.
    exists above, below. cbn. now rewrite app_nil_r.
  - intros (above & below & Ha & Hb & ->).
    apply bind_returns. exists [above; below]. split.
    + apply mapM_returns. repeat constructor; done.
    + cbn. now rewrite app_nil_r.
Qed.

(** For a maximal run, the margin column on the left adds no neighbour. *)
Lemma neighbour_margin (c : Line) (row : Z) (n : Line) :
  maximal_run c →
  neighbour_of (Line.x c - 1) (Line.x c + Line.width c) row n
  ↔ neighbour_of (Line.x c) (Line.x c + Line.width c) row n.
Proof.
  intros (Hw & Hf & Hlm & Hrm). unfold neighbour_of. split.
  - intros (Hy & Hrun & Hhi & Hlo). do 3 (split; [done|]).
    destruct (Z.eq_dec (Line.x n + Line.width n) (Line.x c)) as [Heq | Hne]; [|lia].
    exfalso. destruct Hrun as (Hwn & Hfn & Hlmn & Hrmn).
    apply (no_crossing (Line.y c) (Line.y n) (Line.x c - 1) (Line.x c)).
    + done.
    + apply Hf. lia.
    + apply Hfn. lia.
    + now rewrite <- Heq.
  - intros (Hy & Hrun & Hhi & Hlo). do 3 (split; [done|]). lia.
Qed.

(** ** Invariants of the driver loop *)

Lemma normalize_fuel_irrelevant (f1 f2 : nat) (l a b : Line) :
  _normalize_line f1 l = Returns a → _normalize_line f2 l = Returns b → a = b.
Proof.
  intros (Hy & Hl & Hr)%normalize_inv (Hy' & Hl' & Hr')%normalize_inv.
  pose proof (left_edge_unique _ _ _ _ Hl Hl').
  pose proof (right_edge_unique _ _ _ _ Hr Hr').
  destruct a, b; cbn in *. f_equal; lia.
Qed.

Lemma neighbours_run (c c' : Line) : neighbours c c' → maximal_run c'.
Proof. now intros [(_ & ? & _) | (_ & ? & _)]. Qed.

Lemma loop_body_unprocessed (U P : gset Line) (clump : Line) (found : list Line)
    (c : Line) :
  c ∈ (loop_body U P clump found).1
  ↔ (c ∈ U ∨ (c ∈ found ∧ c ∉ P)) ∧ c ≠ clump.
Proof. unfold loop_body. cbn. set_solver. Qed.

Lemma loop_body_processed (U P : gset Line) (clump : Line) (found : list Line) :
  (loop_body U P clump found).2 = P ∪ {[ clump ]}.
Proof. reflexivity. Qed.

Lemma loop_body_union (U P : gset Line) (clump : Line) (found : list Line)
    (c : Line) :
  clump ∈ U →
  c ∈ (loop_body U P clump found).1 ∪ (loop_body U P clump found).2
  ↔ c ∈ U ∪ P ∨ c ∈ found.
Proof.
  intros Hin. rewrite elem_of_union, loop_body_unprocessed, loop_body_processed.
  rewrite !elem_of_union, elem_of_singleton.
  destruct (decide (c = clump)) as [-> | Hne]; [tauto|].
  destruct (decide (c ∈ P)); tauto.
Qed.

Lemma loop_body_disjoint (U P : gset Line) (clump : Line) (found : list Line) :
  U ## P → (loop_body U P clump found).1 ## (loop_body U P clump found).2.
Proof.
  intros Hdisj. apply elem_of_disjoint. intros c.
  rewrite loop_body_unprocessed, loop_body_processed.
  rewrite elem_of_union, elem_of_singleton.
  intros [[HU | [_ HnP]] Hne] [HP | Heq]; try done.
  now apply (Hdisj c).
Qed.

(** ** The seed

    From here on the platform is accurate: the seed and what follows from
    it depend on the oracle's answers around the origin. *)
Context {accurate : Accurate}.

Lemma row0_safe (i : Z) : -698 ≤ i ≤ 698 → safe_at 0 i.
Proof.
  intros Hi. unfold safe_at. rewrite check_mine_accurate by lia.
  assert (Forall (λ i, is_mine_spec i 0 = false) (seqZ (-698) 1397)) as Hall
    by (apply (bool_decide_unpack _); vm_compute; exact I).
  rewrite Forall_forall in Hall. apply Hall, elem_of_seqZ. lia.
Qed.

Lemma first_clump_value :
  _normalize_line 2000 (Line.mk 0 0 0) = Returns first_clump.
Proof.
  destruct (normalize_total 2000 (Line.mk 0 0 0)) as [l Hl]; [lia|].
  rewrite Hl. f_equal.
  destruct (normalize_inv _ _ _ Hl) as (Hy & Hleft & Hright).
  cbn [Line.x Line.y Line.width] in *.
  assert (left_edge 0 0 (-698)) as Hleft'.
  { right. split; [lia|]. split.
    - apply heavy_column. now vm_compute.
    - intros i Hi. apply row0_safe. lia. }
  assert (right_edge 0 (0 + 0) 699) as Hright'.
  { right. split; [lia|]. split.
    - apply heavy_column. now vm_compute.
    - intros i Hi. apply row0_safe. lia. }
  pose proof (left_edge_unique _ _ _ _ Hleft Hleft').
  pose proof (right_edge_unique _ _ _ _ Hright Hright').
  destruct l as [lx ly lw]. cbn [Line.x Line.y Line.width] in *.
  unfold first_clump. f_equal; lia.
Qed.

Lemma first_clump_unique (fuel : nat) (c : Line) :
  _normalize_line fuel (Line.mk 0 0 0) = Returns c → c = first_clump.
Proof.
  intros Hc. apply (normalize_fuel_irrelevant _ _ _ _ _ Hc first_clump_value).
Qed.

Lemma first_clump_run : maximal_run first_clump.
Proof.
  destruct (normalize_inv _ _ _ first_clump_value) as (_ & Hl & Hr).
  cbn [Line.x Line.y Line.width first_clump] in *.
  assert (safe_at 0 0) as Horigin by reflexivity.
  destruct Hl as [[Hm _] | (_ & Hlm & Hls)]; [now destruct (mine_not_safe 0 0)|].
  destruct Hr as [[Hm _] | (_ & Hrm & Hrs)]; [now destruct (mine_not_safe 0 0)|].
  unfold maximal_run, first_clump. cbn [Line.x Line.y Line.width].
  split; [lia|]. split; [|done].
  intros i Hi. destruct (Z.le_gt_cases i 0); [apply Hls | apply Hrs]; lia.
Qed.

Lemma invariant_initial : invariant (initial first_clump).
Proof.
  split; cbn [initial unprocessed_clumps processed_clumps stdout exited].
  - apply disjoint_empty_r.
  - intros c [->%elem_of_singleton | []%elem_of_empty]%elem_of_union.
    apply first_clump_run.
  - intros c [->%elem_of_singleton | []%elem_of_empty]%elem_of_union.
    constructor.
  - apply elem_of_union. left. now apply elem_of_singleton.
  - now intros c c' ?%elem_of_empty.
  - done.
Qed.

Lemma invariant_step (s s' : state) : invariant s → step s s' → invariant s'.
Proof.
  intros [Hdisj Hruns Hconn Hfirst Hclosed Hout] Hstep.
  destruct Hstep as [U P out clump fuel found Hin Hfound | U P out Hsize];
    cbn [unprocessed_clumps processed_clumps stdout exited] in *.
  - assert (maximal_run clump) as Hrun
      by (apply Hruns, elem_of_union; now left).
    assert (∀ c', c' ∈ found ↔ neighbours clump c') as Helem
      by (intros c'; apply (find_safe_clumps_elem fuel); [apply Hrun | done]).
    split; cbn [unprocessed_clumps processed_clumps stdout exited].
    + now apply loop_body_disjoint.
    + intros c [Hc | Hc]%loop_body_union; [now apply Hruns | | done].
      apply Helem in Hc. now apply neighbours_run in Hc.
    + intros c [Hc | Hc]%loop_body_union; [now apply Hconn | | done].
      apply Helem in Hc. apply (connected_next clump); [|done].
      apply Hconn, elem_of_union. now left.
    + apply loop_body_union; [done|]. now left.
    + intros c c' Hc Hn. apply loop_body_union; [done|].
      rewrite loop_body_processed in Hc.
      apply elem_of_union in Hc as [Hc | ->%elem_of_singleton].
      * left. now apply (Hclosed c).
      * right. now apply Helem.
    + done.
  - apply size_empty_inv, leibniz_equiv in Hsize. subst U.
    split; cbn [unprocessed_clumps processed_clumps stdout exited]; try done.
    now rewrite Hout.
Qed.

Lemma reachable_invariant (s : state) : reachable s → invariant s.
Proof.
  induction 1 as [fuel c Hc | s s' _ IH Hstep].
  - apply first_clump_unique in Hc as ->. apply invariant_initial.
  - now apply (invariant_step s).
Qed.

(** The loop can always go on: no call of an iteration raises or runs for
    ever, so a state inside the loop always has a next state. *)
Lemma progress (s : state) :
  reachable s → exited s = false → ∃ s', step s s'.
Proof.
  intros Hreach Hex. pose proof (reachable_invariant s Hreach) as Hinv.
  destruct s as [U P out ex]. cbn in *. subst ex.
  destruct (decide (size U = 0%nat)) as [Hz | Hnz].
  - eexists. now apply step_exit.
  - destruct (size_pos_elem_of U ltac:(lia)) as [clump Hclump].
    assert (maximal_run clump) as (Hw & _)
      by (apply (inv_runs _ Hinv), elem_of_union; now left).
    destruct (find_safe_clumps_total 2000 clump ltac:(lia) Hw) as [found Hfound].
    eexists. now apply (step_iteration U P out clump 2000%nat found).
Qed.

(** At the exit the processed set is the set of connected clumps. *)
Lemma exited_processed (s : state) (c : Line) :
  reachable s → exited s = true → c ∈ processed_clumps s ↔ connected c.
Proof.
  intros Hinv%reachable_invariant Hex.
  destruct Hinv as [_ _ Hconn Hfirst Hclosed Hout]. rewrite Hex in Hout.
  destruct Hout as [HU _]. rewrite HU in *.
  assert (∀ c', c' ∈ (∅ : gset Line) ∪ processed_clumps s
                ↔ c' ∈ processed_clumps s) as Hempty
    by (intros c'; rewrite elem_of_union, elem_of_empty; tauto).
  split.
  - intros Hc. now apply Hconn, Hempty.
  - induction 1 as [|c c' _ IH Hn]; [now apply Hempty|].
    now apply Hempty, (Hclosed c).
Qed.

(** ** Cells *)

Lemma elem_of_cells (l : Line) (col row : Z) :
  (col, row) ∈ cells l
  ↔ row = Line.y l ∧ Line.x l ≤ col < Line.x l + Line.width l.
Proof.
  unfold cells. rewrite elem_of_list_to_set, list_elem_of_fmap. split.
  - intros (i & [= -> ->] & Hi%elem_of_seqZ). done.
  - intros [-> Hcol]. exists col. split; [done|]. now apply elem_of_seqZ.
Qed.

Lemma size_cells (l : Line) : size (cells l) = Z.to_nat (Line.width l).
Proof.
  unfold cells. rewrite size_list_to_set.
  - now rewrite length_fmap, length_seqZ.
  - apply NoDup_fmap_2; [|apply NoDup_seqZ]. now intros i j [= ->].
Qed.

(** Two maximal runs with a common cell are the same run. *)
Lemma maximal_run_cells_disjoint (c1 c2 : Line) :
  maximal_run c1 → maximal_run c2 → c1 ≠ c2 → cells c1 ## cells c2.
Proof.
  intros (Hw1 & Hf1 & Hl1 & Hr1) (Hw2 & Hf2 & Hl2 & Hr2) Hne.
  apply elem_of_disjoint. intros [col row] [Hy1 Hc1]%elem_of_cells
    [Hy2 Hc2]%elem_of_cells.
  apply Hne. rewrite Hy1 in Hy2. rewrite <- Hy2 in *.
  assert (Line.x c1 = Line.x c2).
  { destruct (Z.lt_trichotomy (Line.x c1) (Line.x c2)) as [? | [? | ?]];
      [|done|]; mine_clash. }
  assert (Line.x c1 + Line.width c1 = Line.x c2 + Line.width c2).
  { destruct (Z.lt_trichotomy (Line.x c1 + Line.width c1)
                (Line.x c2 + Line.width c2)) as [? | [? | ?]];
      [|done|]; mine_clash. }
  destruct c1, c2; cbn in *. f_equal; lia.
Qed.

Lemma StronglySorted_lookup_lt {A : Type} (R : A → A → Prop) (l : list A)
    (i j : nat) (a b : A) :
  StronglySorted R l → (i < j)%nat → l !! i = Some a → l !! j = Some b → R a b.
Proof.
  intros Hsorted. revert i j.
  induction Hsorted as [|h l _ IH Hall]; intros i j Hij Hi Hj; [done|].
  destruct j as [|j]; [lia|]. cbn in Hj.
  destruct i as [|i]; cbn in Hi.
  - injection Hi as ->. rewrite Forall_forall in Hall.
    apply Hall. now apply list_elem_of_lookup_2 in Hj.
  - apply (IH i j); [lia | done | done].
Qed.

Section Runs.
Variable row : Z.

Lemma run_left_exists (n : nat) (lo col : Z) :
  lo ≤ col → col - lo ≤ Z.of_nat n → safe_at row col →
  ∃ a, lo ≤ a ≤ col ∧ (∀ i, a ≤ i ≤ col → safe_at row i)
       ∧ (a = lo ∨ mine_at row (a - 1)).
Proof.
  revert col. induction n as [|n IH]; intros col Hlo Hn Hsafe.
  - exists col. repeat split; [lia.. | | left; lia].
    intros i Hi. now replace i with col by lia.
  - destruct (Z.eq_dec col lo) as [-> | Hne].
    + exists lo. repeat split; [lia.. | | now left].
      intros i Hi. now replace i with lo by lia.
    + destruct (mine_or_safe row (col - 1)) as [Hm | Hs].
      * exists col. repeat split; [lia.. | | now right].
        intros i Hi. now replace i with col by lia.
      * destruct (IH (col - 1)) as (a & Ha & Hf & Hedge); [lia | lia | done |].
        exists a. repeat split; [lia.. | | done].
        intros i Hi. destruct (Z.eq_dec i col) as [-> | ?]; [done | apply Hf; lia].
Qed.

Lemma run_right_exists (n : nat) (hi col : Z) :
  col < hi → hi - col ≤ Z.of_nat n → safe_at row col →
  ∃ b, col < b ≤ hi ∧ (∀ i, col ≤ i < b → safe_at row i)
       ∧ (b = hi ∨ mine_at row b).
Proof.
  revert col. induction n as [|n IH]; intros col Hhi Hn Hsafe; [lia|].
  destruct (Z.eq_dec (col + 1) hi) as [<- | Hne].
  - exists (col + 1). repeat split; [lia.. | | now left].
    intros i Hi. now replace i with col by lia.
  - destruct (mine_or_safe row (col + 1)) as [Hm | Hs].
    + exists (col + 1). repeat split; [lia.. | | now right].
      intros i Hi. now replace i with col by lia.
    + destruct (IH (col + 1)) as (b & Hb & Hf & Hedge); [lia | lia | done |].
      exists b. repeat split; [lia.. | | done].
      intros i Hi. destruct (Z.eq_dec i col) as [-> | ?]; [done | apply Hf; lia].
Qed.

(** Every safe cell of a span lies in a maximal run of the span. *)
Lemma containing_run (lo hi col : Z) :
  lo ≤ col < hi → safe_at row col →
  ∃ c, Line.y c = row ∧ maximal_in lo hi c
       ∧ Line.x c ≤ col < Line.x c + Line.width c.
Proof.
  intros Hcol Hsafe.
  destruct (run_left_exists (Z.to_nat (col - lo)) lo col)
    as (a & Ha & Hfa & Hea); [lia | lia | done |].
  destruct (run_right_exists (Z.to_nat (hi - col)) hi col)
    as (b & Hb & Hfb & Heb); [lia | lia | done |].
  exists (Line.mk a row (b - a)). cbn [Line.x Line.y Line.width].
  split; [done|]. split; [|lia].
  unfold maximal_in. cbn [Line.x Line.y Line.width].
  replace (a + (b - a)) with b by lia.
  split; [lia|]. split; [|done].
  intros i Hi. destruct (Z.le_gt_cases i col); [apply Hfa | apply Hfb]; lia.
Qed.

End Runs.

(** ** Pairs of scanned clumps *)

Lemma scan_pair_ordered (l : Line) (cs : list Line) (i j : nat) (c1 c2 : Line) :
  _find_safe_clumps_within_line l = Returns cs →
  (i < j)%nat → cs !! i = Some c1 → cs !! j = Some c2 →
  cells c1 ## cells c2
  ∧ mine_at (Line.y l) (Line.x c2 - 1)
  ∧ Line.x c1 + Line.width c1 ≤ Line.x c2 - 1 < Line.x c2.
Proof.
  intros Hscan Hij Hi Hj.
  pose proof (StronglySorted_lookup_lt _ _ _ _ _ _ (scan_sorted _ _ Hscan) Hij Hi Hj)
    as Hlt. cbn beta in Hlt.
  apply list_elem_of_lookup_2, (scan_elem _ _ _ Hscan) in Hi
    as (Hy1 & (Ha1 & Hw1 & Hb1) & _).
  apply list_elem_of_lookup_2, (scan_elem _ _ _ Hscan) in Hj
    as (Hy2 & _ & _ & Hlo2 & _).
  split; [|split; [|lia]].
  - apply elem_of_disjoint. intros [col row] [_ ?]%elem_of_cells [_ ?]%elem_of_cells.
    lia.
  - rewrite <- Hy2. destruct Hlo2 as [? | ?]; [lia | done].
Qed.

(** ** The printed sum counts cells *)

Lemma elem_of_covered (X : gset Line) (p : Z * Z) :
  p ∈ covered X ↔ ∃ c, c ∈ X ∧ p ∈ cells c.
Proof.
  unfold covered. rewrite elem_of_union_list. split.
  - intros (C & (c & -> & Hc%elem_of_elements)%list_elem_of_fmap & Hp). eauto.
  - intros (c & Hc & Hp). exists (cells c). split; [|done].
    apply list_elem_of_fmap. exists c. split; [done | now apply elem_of_elements].
Qed.

(** The order in which a set is iterated does not change the sum. *)
Lemma sum_permutation (l1 l2 : list Z) : l1 ≡ₚ l2 → sum l1 = sum l2.
Proof.
  intros Hperm. rewrite !sum_foldr.
  induction Hperm as [|d l1 l2 _ IH | d e l | l1 l2 l3 _ IH1 _ IH2]; cbn; lia.
Qed.

Lemma sum_widths_empty : sum_widths ∅ = 0.
Proof. unfold sum_widths. now rewrite elements_empty. Qed.

Lemma sum_widths_insert (c : Line) (X : gset Line) :
  c ∉ X → sum_widths ({[ c ]} ∪ X) = Line.width c + sum_widths X.
Proof.
  intros Hc. unfold sum_widths.
  rewrite (sum_permutation _ (Line.width <$> c :: elements X)).
  - now rewrite fmap_cons, sum_cons.
  - apply fmap_Permutation. now apply elements_union_singleton.
Qed.

Lemma covered_insert (c : Line) (X : gset Line) :
  covered ({[ c ]} ∪ X) = cells c ∪ covered X.
Proof.
  apply set_eq. intros p. rewrite elem_of_union, !elem_of_covered. split.
  - intros (c' & [->%elem_of_singleton | Hc']%elem_of_union & Hp); eauto.
  - intros [Hp | (c' & Hc' & Hp)].
    + exists c. split; [|done]. apply elem_of_union. left. now apply elem_of_singleton.
    + exists c'. split; [|done]. apply elem_of_union. now right.
Qed.

Lemma sum_widths_counts_cells (X : gset Line) :
  (∀ c, c ∈ X → maximal_run c) →
  sum_widths X = Z.of_nat (size (covered X)).
Proof.
  induction X as [|c X Hc IH] using set_ind_L; intros Hruns.
  - rewrite sum_widths_empty. unfold covered. now rewrite elements_empty.
  - rewrite sum_widths_insert, covered_insert by done.
    assert (maximal_run c) as Hrun
      by (apply Hruns, elem_of_union; left; now apply elem_of_singleton).
    rewrite size_union.
    + rewrite size_cells, IH.
      * destruct Hrun as (Hw & _). lia.
      * intros c' Hc'. apply Hruns, elem_of_union. now right.
    + apply elem_of_disjoint. intros p Hp (c' & Hc' & Hp')%elem_of_covered.
      assert (c ≠ c') as Hne by (intros ->; done).
      assert (maximal_run c') as Hrun'
        by (apply Hruns, elem_of_union; now right).
      now apply (maximal_run_cells_disjoint c c' Hrun Hrun' Hne p).
Qed.

(** ** The loop terminates *)

Lemma elem_of_window (c : Line) :
  in_window c → 0 < Line.width c → c ∈ window.
Proof.
  intros (Hy & Hx & He) Hw. unfold window.
  apply elem_of_list_to_set, list_elem_of_bind.
  exists (Line.y c). split; [|apply elem_of_seqZ; lia].
  apply list_elem_of_bind. exists (Line.x c). split; [|apply elem_of_seqZ; lia].
  apply list_elem_of_bind. exists (Line.width c). split; [|apply elem_of_seqZ; lia].
  destruct c. apply list_elem_of_singleton. reflexivity.
Qed.

Lemma neighbours_in_window (c c' : Line) :
  in_window c → neighbours c c' → in_window c'.
Proof.
  intros (Hy & Hx & He) Hn.
  assert (maximal_run c' ∧ (Line.y c' = Line.y c + -1 ∨ Line.y c' = Line.y c + 1)
          ∧ Line.x c' ≤ Line.x c + Line.width c
          ∧ Line.x c < Line.x c' + Line.width c')
    as ((Hw & Hf & _ & _) & Hrow & Hhi & Hlo)
    by (destruct Hn as [(? & ? & ? & ?) | (? & ? & ? & ?)]; auto).
  assert (∀ col, Line.x c' ≤ col < Line.x c' + Line.width c' →
                 mine_at (Line.y c') col → False) as Hclash
    by (intros col Hcol Hm; apply (mine_not_safe _ _ Hm); now apply Hf).
  unfold in_window. split; [|split].
  - destruct (Z.eq_dec (Line.y c') 699) as [Heq | ?];
      [|destruct (Z.eq_dec (Line.y c') (-699)) as [Heq | ?]; [|lia]];
      exfalso; apply (Hclash (Line.x c')); try lia;
      apply heavy_row; rewrite Heq; now vm_compute.
  - destruct (Z.le_gt_cases (-698) (Line.x c')); [done|].
    exfalso. apply (Hclash (-699)); [lia|]. apply heavy_column. now vm_compute.
  - destruct (Z.le_gt_cases (Line.x c' + Line.width c') 699); [done|].
    exfalso. apply (Hclash 699); [lia|]. apply heavy_column. now vm_compute.
Qed.

Lemma connected_in_window (c : Line) : connected c → in_window c.
Proof.
  induction 1 as [|c c' _ IH Hn].
  - unfold in_window, first_clump. cbn. lia.
  - now apply (neighbours_in_window c).
Qed.

Lemma step_measure (s s' : state) :
  invariant s → step s s' → (measure s' < measure s)%nat.
Proof.
  intros Hinv Hstep.
  destruct Hstep as [U P out clump fuel found Hin Hfound | U P out Hsize];
    unfold measure; cbn [unprocessed_clumps processed_clumps stdout exited].
  - rewrite loop_body_processed.
    assert (clump ∈ window ∖ P) as Hclump.
    { apply elem_of_difference. split.
      - apply elem_of_window.
        + apply connected_in_window, (inv_connected _ Hinv), elem_of_union. now left.
        + apply (inv_runs _ Hinv), elem_of_union. now left.
      - intros HP. now apply (inv_disjoint _ Hinv clump). }
    assert (window ∖ (P ∪ {[clump]}) ⊂ window ∖ P) as Hsub.
    { split.
      - intros c [Hc HnP]%elem_of_difference. apply elem_of_difference.
        split; [done|]. intros HP. apply HnP, elem_of_union. now left.
      - intros Hsub. specialize (Hsub clump Hclump).
        apply elem_of_difference in Hsub as [_ Hn]. apply Hn, elem_of_union.
        right. now apply elem_of_singleton. }
    apply subset_size in Hsub. lia.
  - lia.
Qed.

(** Every execution of the loop is finite. *)
Lemma executions_finite (s : state) : reachable s → Acc (flip step) s.
Proof.
  intros Hreach. remember (measure s) as n eqn:Hn.
  revert s Hreach Hn. induction n as [n IH] using lt_wf_ind.
  intros s Hreach ->. constructor. intros s' Hstep. unfold flip in Hstep.
  apply (IH (measure s')); [|now apply (reachable_step s) | done].
  apply step_measure; [now apply reachable_invariant | done].
Qed.

(** Every execution can be run to the exit. *)
Lemma reaches_exit (s : state) :
  reachable s → ∃ s', rtc step s s' ∧ reachable s' ∧ exited s' = true.
Proof.
  intros Hreach. induction (executions_finite s Hreach) as [s _ IH].
  destruct (exited s) eqn:Hex.
  - exists s. split; [apply rtc_refl | done].
  - destruct (progress s Hreach Hex) as [s1 Hstep].
    destruct (IH s1 Hstep) as (s' & Hrtc & Hreach' & Hex');
      [now apply (reachable_step s)|].
    exists s'. split; [now apply (rtc_l _ _ s1) | done].
Qed.

Lemma initial_reachable : reachable (initial first_clump).
Proof. apply (reachable_initial 2000). exact first_clump_value. Qed.

End Properties.

(** The first iteration on the ideal platform. *)
Lemma first_found_returns :
  _find_safe_clumps 2000 first_clump = Returns first_found.
Proof. vm_compute. reflexivity. Qed.

Lemma first_step :
  step (initial first_clump)
    (State (loop_body {[ first_clump ]} ∅ first_clump first_found).1
           (loop_body {[ first_clump ]} ∅ first_clump first_found).2 [] false).
Proof.
  apply (step_iteration _ _ _ first_clump 2000 first_found).
  - now apply elem_of_singleton.
  - exact first_found_returns.
Qed.

(** * The claims

    What is claimed of the oracle, the walks, the normalizer and the
    scanner is proved for every platform.  What is claimed of [main]
    depends on the oracle's answers around the origin, and is proved for
    every accurate platform ([Accurate]).  Each property is tried out on
    the ideal platform. *)

(** C1. In every driver step, for the popped clump [c], the candidates
    that [_find_safe_clumps] produces are those obtained by scanning the
    span [c.x - 1, c.x + c.width + 1) on the rows [c.y - 1] and [c.y + 1]
    and normalizing each clump the scanner returns; they lie on those two
    rows and on no other.  The platform is accurate. *)
Theorem neighbour_candidates {platform : Log10} {accurate : Accurate}
    (s : state) (c : Line) (fuel : nat) :
  reachable s → c ∈ unprocessed_clumps s → (2000 ≤ fuel)%nat →
  ∃ found spec_found,
    _find_safe_clumps fuel c = Returns found
    ∧ spec_find_safe_clumps fuel c = Returns spec_found
    ∧ list_to_set found =@{gset Line} list_to_set spec_found
    ∧ (∀ c', c' ∈ found →
             Line.y c' = Line.y c - 1 ∨ Line.y c' = Line.y c + 1).
Proof.
  intros Hinv%reachable_invariant Hc Hfuel.
  assert (maximal_run c) as Hrun
    by (apply (inv_runs _ Hinv), elem_of_union; now left).
  pose proof Hrun as (Hw & _).
  destruct (find_safe_clumps_total fuel c Hfuel Hw) as [found Hfound].
  destruct (spec_scan_row_total fuel c (-1) Hfuel Hw) as [above Ha].
  destruct (spec_scan_row_total fuel c 1 Hfuel Hw) as [below Hb].
  exists found, (above ++ below).
  split; [done|]. split; [apply spec_find_safe_clumps_returns; eauto|].
  split.
  - apply set_eq. intros c'.
    rewrite !elem_of_list_to_set, elem_of_app.
    rewrite (find_safe_clumps_elem fuel c found c' Hw Hfound).
    rewrite (spec_scan_row_elem fuel c (-1) above c' Hfuel Hw Ha).
    rewrite (spec_scan_row_elem fuel c 1 below c' Hfuel Hw Hb).
    now rewrite !(neighbour_margin c _ c' Hrun).
  - intros c' Hc'.
    apply (find_safe_clumps_elem fuel c found c' Hw Hfound) in Hc'
      as [(Hy & _) | (Hy & _)]; lia.
Qed.

Lemma neighbour_candidates_witness :
  ∃ found spec_found,
    _find_safe_clumps 2000 first_clump = Returns found
    ∧ spec_find_safe_clumps 2000 first_clump = Returns spec_found
    ∧ list_to_set found =@{gset Line} list_to_set spec_found
    ∧ (∀ c', c' ∈ found →
             Line.y c' = Line.y first_clump - 1
             ∨ Line.y c' = Line.y first_clump + 1).
Proof.
  apply (neighbour_candidates (initial first_clump) first_clump 2000).
  - apply (reachable_initial 2000). vm_compute. reflexivity.
  - change (first_clump ∈ ({[ first_clump ]} : gset Line)).
    apply elem_of_singleton. reflexivity.
  - lia.
Defined.

(** C2, as stated: for every span the scanner returns clumps that
    partition the safe cells of the span.  It fails on an empty span,
    where NumPy raises [IndexError], whatever the platform. *)
Lemma scanner_empty_span_raises :
  ¬ ∃ platform : Log10, scanner_partitions (platform := platform) (Line.mk 0 0 0).
Proof.
  intros (platform & cs & Hscan & _).
  rewrite scan_empty_span in Hscan by (cbn; lia). discriminate Hscan.
Qed.

(** C2, amended. For every row and every span of width at least 1, the
    scanner returns clumps whose cell sets are pairwise disjoint, with a
    mine strictly between any two of them, whose union is the set of safe
    cells of the span, and none of which holds a mine. *)
Theorem scanner_partitions_span {platform : Log10} (l : Line) :
  0 < Line.width l → scanner_partitions l.
Proof.
  intros Hw. exists (line_of_slice l <$> Np.ezclump 0 None (line_mask l)).
  pose proof (scan_nonempty l Hw) as Hscan.
  set (cs := line_of_slice l <$> Np.ezclump 0 None (line_mask l)) in *.
  split; [done|]. split; [|split].
  - intros i j c1 c2 Hne Hi Hj.
    destruct (Nat.lt_trichotomy i j) as [Hlt | [-> | Hgt]]; [|done|].
    + destruct (scan_pair_ordered l cs i j c1 c2) as (Hd & Hm & Hb); [done..|].
      split; [done|]. exists (Line.x c2 - 1). split; [done | now left].
    + destruct (scan_pair_ordered l cs j i c2 c1) as (Hd & Hm & Hb); [done..|].
      split; [done|]. exists (Line.x c1 - 1). split; [done | now right].
  - intros col row. rewrite elem_of_union_list. split.
    + intros (X & (c & -> & Hc)%list_elem_of_fmap & [-> Hcol]%elem_of_cells).
      apply (scan_elem _ _ _ Hscan) in Hc as (Hy & (Ha & Hwc & Hb) & Hf & _).
      split; [done|]. split; [lia|]. now apply Hf.
    + intros (-> & Hcol & Hsafe).
      destruct (containing_run (Line.y l) (Line.x l) (Line.x l + Line.width l) col)
        as (c & Hy & Hmax & Hc); [done | done |].
      exists (cells c). split.
      * apply list_elem_of_fmap. exists c. split; [done|].
        now apply (scan_elem _ _ _ Hscan).
      * now apply elem_of_cells.
  - intros c col row Hc [-> Hcol]%elem_of_cells.
    apply (scan_elem _ _ _ Hscan) in Hc as (_ & _ & Hf & _). now apply Hf.
Qed.

Lemma scanner_partitions_span_witness : scanner_partitions (Line.mk 697 0 95).
Proof. apply scanner_partitions_span. cbn. lia. Defined.

(** C3. Two executions of the driver loop that pick clumps in different
    orders end with the same processed set, and print the same total.
    The platform is accurate. *)
Theorem driver_order_independent {platform : Log10} {accurate : Accurate}
    (s1 s2 : state) :
  reachable s1 → reachable s2 → exited s1 = true → exited s2 = true →
  processed_clumps s1 = processed_clumps s2
  ∧ sum_widths (processed_clumps s1) = sum_widths (processed_clumps s2)
  ∧ stdout s1 = stdout s2.
Proof.
  intros Hr1 Hr2 He1 He2.
  assert (processed_clumps s1 = processed_clumps s2) as Heq.
  { apply set_eq. intros c.
    now rewrite (exited_processed s1 c Hr1 He1), (exited_processed s2 c Hr2 He2). }
  split; [done|]. split; [now rewrite Heq|].
  pose proof (inv_stdout _ (reachable_invariant _ Hr1)) as Ho1.
  pose proof (inv_stdout _ (reachable_invariant _ Hr2)) as Ho2.
  rewrite He1 in Ho1. rewrite He2 in Ho2.
  destruct Ho1 as [_ ->], Ho2 as [_ ->]. now rewrite Heq.
Qed.

Lemma driver_order_independent_witness :
  ∃ s1 s2, reachable s1 ∧ reachable s2
           ∧ exited s1 = true ∧ exited s2 = true
           ∧ processed_clumps s1 = processed_clumps s2
           ∧ sum_widths (processed_clumps s1) = sum_widths (processed_clumps s2)
           ∧ stdout s1 = stdout s2.
Proof.
  destruct (reaches_exit (initial first_clump) initial_reachable)
    as (s1 & _ & Hr1 & He1).
  destruct (reaches_exit _ (reachable_step _ _ initial_reachable first_step))
    as (s2 & _ & Hr2 & He2).
  exists s1, s2. do 4 (split; [done|]).
  exact (driver_order_independent s1 s2 Hr1 Hr2 He1 He2).
Defined.

(** C4, in the code. The oracle follows the digit-sum rule only where
    the floating-point logarithm is not rounded down.  CPython computes
    [floor(log10(10 ** 512))] as 511: the loop of [_get_int_digits] then
    starts one power of ten too low, the first number it yields for
    [10 ** 512] is 10, and the cell [(10 ** 512, 77)], whose digits add up
    to 1 + 7 + 7 = 15, is a mine for the program. *)
Theorem oracle_miscounts_rounded_log10 {platform : Log10} :
  floor_log10 (10 ^ 512) = 511 →
  head (_get_int_digits (10 ^ 512)) = Some 10
  ∧ sum (_get_int_digits (10 ^ 512)) = 10
  ∧ _check_mine_at_position (10 ^ 512) 77 = true
  ∧ digitsum (Z.abs (10 ^ 512)) + digitsum (Z.abs 77) = 15
  ∧ is_mine_spec (10 ^ 512) 77 = false.
Proof.
  intros Hlog.
  destruct (power_of_ten_rounded_down 511 Hlog) as (Hhead & Hsum & Hds).
  change (Z.of_nat 512) with 512 in *.
  assert (digitsum (Z.abs 77) = 14) as H77 by reflexivity.
  split; [exact Hhead|]. split; [exact Hsum|]. split; [|split].
  - rewrite check_mine_sums, Hsum. unfold THRESHOLD. apply Z.ltb_lt.
    pose proof (sum_get_int_digits_ge 77). lia.
  - rewrite Hds, H77. reflexivity.
  - unfold is_mine_spec, THRESHOLD. rewrite Hds, H77. reflexivity.
Qed.

Lemma oracle_miscounts_rounded_log10_witness :
  head (_get_int_digits (platform := rounding) (10 ^ 512)) = Some 10
  ∧ sum (_get_int_digits (platform := rounding) (10 ^ 512)) = 10
  ∧ _check_mine_at_position (platform := rounding) (10 ^ 512) 77 = true
  ∧ digitsum (Z.abs (10 ^ 512)) + digitsum (Z.abs 77) = 15
  ∧ is_mine_spec (10 ^ 512) 77 = false.
Proof.
  apply (oracle_miscounts_rounded_log10 (platform := rounding)).
  unfold floor_log10, rounding. now rewrite Z.eqb_refl.
Defined.

(** C5. Normalization is idempotent: for every clump whose cells are all
    safe and whose width is positive, the boundary walks end, and
    normalizing the result again returns it unchanged. *)
Theorem normalizer_idempotent {platform : Log10} (c : Line) (fuel : nat) :
  0 < Line.width c →
  (∀ i, Line.x c ≤ i < Line.x c + Line.width c → safe_at (Line.y c) i) →
  (2000 ≤ fuel)%nat →
  ∃ c', _normalize_line fuel c = Returns c'
        ∧ _normalize_line fuel c' = Returns c'
        ∧ _normalize_line fuel c ≫= _normalize_line fuel = _normalize_line fuel c.
Proof.
  intros Hw Hsafe Hfuel.
  destruct (normalize_total fuel c Hfuel) as [c' Hc'].
  exists c'. split; [done|].
  pose proof (normalize_idempotent fuel c) as Hidem.
  split; [|done]. rewrite Hc' in Hidem. exact Hidem.
Qed.

Lemma normalizer_idempotent_witness :
  ∃ c', _normalize_line 2000 (Line.mk 0 0 1) = Returns c'
        ∧ _normalize_line 2000 c' = Returns c'
        ∧ _normalize_line 2000 (Line.mk 0 0 1) ≫= _normalize_line 2000
          = _normalize_line 2000 (Line.mk 0 0 1).
Proof.
  apply normalizer_idempotent.
  - cbn. lia.
  - cbn. intros i Hi. assert (i = 0) as -> by lia. reflexivity.
  - lia.
Defined.

(** C6, as stated: a span that holds a mine makes the normalizer fail
    with an assertion failure.  It does not, on any platform: the span of
    columns 690 to 709 of row 0 holds the mine of column 699, and the
    normalizer does not raise on it; where the logarithm is exact it
    returns the columns -698 to 788. *)
Lemma normalizer_accepts_mine :
  (¬ ∃ platform : Log10,
       normalizer_rejects_mines (platform := platform) 2000 (Line.mk 690 0 20))
  ∧ _normalize_line (platform := ideal) 2000 (Line.mk 690 0 20)
    = Returns (Line.mk (-698) 0 1487).
Proof.
  split; [|vm_compute; reflexivity].
  intros (platform & Hclaim).
  apply (normalize_no_raise 2000 (Line.mk 690 0 20) AssertionError).
  apply Hclaim. exists 699. split; [cbn; lia|].
  apply heavy_column. now vm_compute.
Qed.

(** C6, amended. The normalizer never raises: the assertion of
    [_x_adjust] is only reached from a safe cell, a mine at either end
    leaves that end where it is, and the cells in between are not looked
    at.  With 2000 steps of fuel or more it returns the line described by
    [left_edge] and [right_edge], mines inside the span or not. *)
Theorem normalizer_tolerates_mines {platform : Log10} (fuel : nat) (l : Line) :
  (∀ e, _normalize_line fuel l ≠ Raises e)
  ∧ ∃ l', _normalize_line (2000 + fuel) l = Returns l'
          ∧ Line.y l' = Line.y l
          ∧ left_edge (Line.y l) (Line.x l) (Line.x l')
          ∧ right_edge (Line.y l) (Line.x l + Line.width l)
              (Line.x l' + Line.width l').
Proof.
  split; [intros e; apply normalize_no_raise|].
  destruct (normalize_total (2000 + fuel) l) as [l' Hl']; [lia|].
  exists l'. split; [done|]. now apply normalize_inv in Hl'.
Qed.

(** C7. At every iteration boundary the unprocessed and the processed
    sets are disjoint; an iteration adds exactly the popped clump to the
    processed set, removes it from the unprocessed set and adds there
    only clumps that are not processed.  The platform is accurate. *)
Theorem frontier_discovered_disjoint {platform : Log10} {accurate : Accurate}
    (s s' : state) :
  reachable s → step s s' → step_effect s s'.
Proof.
  intros Hreach Hstep.
  pose proof (reachable_invariant s Hreach) as Hinv.
  pose proof (invariant_step s s' Hinv Hstep) as Hinv'.
  unfold step_effect.
  split; [apply (inv_disjoint _ Hinv)|]. split; [apply (inv_disjoint _ Hinv')|].
  destruct Hstep as [U P out clump fuel found Hin Hfound | U P out Hsize];
    cbn [unprocessed_clumps processed_clumps stdout exited].
  - rewrite loop_body_processed. split; [apply union_subseteq_l|].
    right. split; [done|]. exists clump.
    assert (clump ∉ P) as HnP
      by (intros HP; now apply (inv_disjoint _ Hinv clump)).
    split; [done|]. split; [done|]. split; [done|]. split; [|split].
    + rewrite loop_body_unprocessed. now intros [_ ?].
    + intros c [Hc Hne%not_elem_of_singleton]%elem_of_difference.
      apply loop_body_unprocessed. auto.
    + intros c [[HU | [_ HnPc]] Hne]%loop_body_unprocessed HnU; [done|].
      split; [done|]. rewrite elem_of_union, elem_of_singleton. tauto.
  - split; [done|]. now left.
Qed.

Lemma frontier_discovered_disjoint_witness :
  step_effect (initial first_clump)
    (State (loop_body {[ first_clump ]} ∅ first_clump first_found).1
           (loop_body {[ first_clump ]} ∅ first_clump first_found).2 [] false).
Proof.
  apply frontier_discovered_disjoint.
  - apply (reachable_initial 2000). vm_compute. reflexivity.
  - apply (step_iteration _ _ _ first_clump 2000 first_found).
    + apply elem_of_singleton. reflexivity.
    + vm_compute. reflexivity.
Defined.

(** C8. When the loop has been left the unprocessed set is empty and
    standard output holds exactly one line: the decimal numeral of the sum
    of the widths of the processed clumps, followed by a newline.  Nothing
    is written before, and nothing happens after.
    The platform is accurate. *)
Theorem output_is_sum_of_widths {platform : Log10} {accurate : Accurate}
    (s : state) :
  reachable s → exited s = true →
  unprocessed_clumps s = ∅
  ∧ stdout s
    = [pretty (sum (Line.width <$> elements (processed_clumps s))) +:+ LF]
  ∧ (∀ s0, reachable s0 → exited s0 = false → stdout s0 = [])
  ∧ ¬ ∃ s', step s s'.
Proof.
  intros Hreach Hex.
  pose proof (inv_stdout _ (reachable_invariant _ Hreach)) as Hout.
  rewrite Hex in Hout. destruct Hout as [HU Hout].
  split; [done|]. split; [exact Hout|]. split.
  - intros s0 Hr0 He0.
    pose proof (inv_stdout _ (reachable_invariant _ Hr0)) as Hout0.
    now rewrite He0 in Hout0.
  - intros [s' Hstep]. destruct Hstep; discriminate Hex.
Qed.

Lemma output_is_sum_of_widths_witness :
  ∃ s, reachable s ∧ exited s = true
       ∧ unprocessed_clumps s = ∅
       ∧ stdout s
         = [pretty (sum (Line.width <$> elements (processed_clumps s))) +:+ LF]
       ∧ (∀ s0, reachable s0 → exited s0 = false → stdout s0 = [])
       ∧ ¬ ∃ s', step s s'.
Proof.
  destruct (reaches_exit (initial first_clump) initial_reachable)
    as (s & _ & Hr & He).
  exists s. do 2 (split; [done|]).
  exact (output_is_sum_of_widths s Hr He).
Defined.

(** C9. Every clump the driver puts into the unprocessed set is a fixed
    point of the normalizer; more generally, every clump the scanner
    returns for a line that is a fixed point of the normalizer is one, and
    so is every clump neighbour discovery returns: a normalization after
    the scan would change nothing.  For the clumps of the driver the
    platform is accurate. *)
Theorem frontier_clumps_normalized {platform : Log10} {accurate : Accurate} :
  (∀ s c fuel, reachable s → c ∈ unprocessed_clumps s → (0 < fuel)%nat →
               _normalize_line fuel c = Returns c)
  ∧ (∀ fuel l cs c fuel',
       _normalize_line fuel l = Returns l →
       _find_safe_clumps_within_line l = Returns cs → c ∈ cs →
       (0 < fuel')%nat → _normalize_line fuel' c = Returns c)
  ∧ (∀ fuel line found c fuel',
       _find_safe_clumps fuel line = Returns found → c ∈ found →
       (0 < fuel')%nat → _normalize_line fuel' c = Returns c).
Proof.
  split; [|split].
  - intros s c fuel Hinv%reachable_invariant Hc Hfuel.
    apply normalize_normalized; [done|]. apply maximal_run_normalized.
    apply (inv_runs _ Hinv), elem_of_union. now left.
  - intros fuel l cs c fuel' Hfix Hscan Hc Hfuel.
    apply normalize_normalized; [done|]. apply maximal_run_normalized.
    apply (scan_normalized l cs c); [|done..].
    now apply (normalized_fixed_point fuel).
  - intros fuel line found c fuel' Hfound Hc Hfuel.
    apply normalize_normalized; [done|]. apply maximal_run_normalized.
    apply find_safe_clumps_returns in Hfound as (above & below & Ha & Hb & ->).
    apply elem_of_app in Hc as [Hc | Hc].
    + apply bind_returns in Ha as (p & Hp & Hscan).
      apply (scan_normalized p above c); [|done..].
      eapply normalize_result_normalized. exact Hp.
    + apply bind_returns in Hb as (p & Hp & Hscan).
      apply (scan_normalized p below c); [|done..].
      eapply normalize_result_normalized. exact Hp.
Qed.

Lemma frontier_clumps_normalized_witness :
  _normalize_line 1 first_clump = Returns first_clump
  ∧ Forall (λ c, _normalize_line 1 c = Returns c) first_found.
Proof.
  destruct frontier_clumps_normalized as (Hfrontier & _ & Hfound).
  split.
  - apply (Hfrontier (initial first_clump)).
    + apply (reachable_initial 2000). vm_compute. reflexivity.
    + change (first_clump ∈ ({[ first_clump ]} : gset Line)).
      apply elem_of_singleton. reflexivity.
    + lia.
  - apply Forall_forall. intros c Hc.
    apply (Hfound 2000%nat first_clump first_found); [|done | lia].
    vm_compute. reflexivity.
Defined.

(** C10. At every iteration boundary two distinct clumps of the
    unprocessed and processed sets have no cell in common, so the sum of
    the widths of the processed clumps is the number of cells they cover,
    and that number is what is printed at the exit.
    The platform is accurate. *)
Theorem clumps_cover_disjoint_cells {platform : Log10} {accurate : Accurate}
    (s : state) :
  reachable s →
  (∀ c1 c2, c1 ∈ unprocessed_clumps s ∪ processed_clumps s →
            c2 ∈ unprocessed_clumps s ∪ processed_clumps s →
            c1 ≠ c2 → cells c1 ## cells c2)
  ∧ sum_widths (processed_clumps s)
    = Z.of_nat (size (covered (processed_clumps s)))
  ∧ stdout s
    = (if exited s
       then [pretty (Z.of_nat (size (covered (processed_clumps s)))) +:+ LF]
       else []).
Proof.
  intros Hinv%reachable_invariant.
  assert (sum_widths (processed_clumps s)
          = Z.of_nat (size (covered (processed_clumps s)))) as Hsum.
  { apply sum_widths_counts_cells. intros c Hc.
    apply (inv_runs _ Hinv), elem_of_union. now right. }
  split; [|split; [done|]].
  - intros c1 c2 H1 H2 Hne.
    apply maximal_run_cells_disjoint; [| |done]; now apply (inv_runs _ Hinv).
  - pose proof (inv_stdout _ Hinv) as Hout.
    destruct (exited s); [|done].
    destruct Hout as [_ ->]. unfold print. now rewrite Hsum.
Qed.

Lemma clumps_cover_disjoint_cells_witness :
  ∃ s, exited s = true
       ∧ (∀ c1 c2, c1 ∈ unprocessed_clumps s ∪ processed_clumps s →
                   c2 ∈ unprocessed_clumps s ∪ processed_clumps s →
                   c1 ≠ c2 → cells c1 ## cells c2)
       ∧ sum_widths (processed_clumps s)
         = Z.of_nat (size (covered (processed_clumps s)))
       ∧ stdout s
         = (if exited s
            then [pretty (Z.of_nat (size (covered (processed_clumps s)))) +:+ LF]
            else []).
Proof.
  destruct (reaches_exit (initial first_clump) initial_reachable)
    as (s & _ & Hr & He).
  exists s. split; [done|].
  exact (clumps_cover_disjoint_cells s Hr).
Defined.

(** * Further properties of the code *)

(** ** [_get_int_digits] *)

(** X1. The numbers [_get_int_digits] yields write the absolute value,
    most significant first, whatever [floor(log10(remainder))] comes out
    as: the first is the quotient of [|value|] by the power of ten the
    loop starts from, the others are digits between 0 and 9; 0 yields the
    single digit 0.  Where the logarithm is exact they are the decimal
    digits: all between 0 and 9 and the first not 0.  (A logarithm
    rounded up gives a leading 0, one rounded down a first number of 10
    or more.) *)
Theorem get_int_digits_decimal {platform : Log10} (value : Z) :
  digits_value (_get_int_digits value) = Z.abs value
  ∧ (value = 0 → _get_int_digits value = [0])
  ∧ (value ≠ 0 →
     ∃ rest,
       _get_int_digits value
       = Z.abs value / 10 ^ Z.max 0 (floor_log10 (Z.abs value)) :: rest
       ∧ length rest = Z.to_nat (floor_log10 (Z.abs value))
       ∧ Forall (λ d, 0 ≤ d ≤ 9) rest)
  ∧ (value ≠ 0 → log10_exact_at (Z.abs value) →
     Forall (λ d, 0 ≤ d ≤ 9) (_get_int_digits value)
     ∧ ∃ d rest, _get_int_digits value = d :: rest ∧ 0 < d).
Proof.
  unfold _get_int_digits, log10_exact_at. cbv zeta.
  destruct (Z.eqb_spec (Z.abs value) 0) as [Hz | Hnz].
  - rewrite Hz. split; [reflexivity|]. split; [done|]. split; intros; lia.
  - assert (0 ≤ Z.abs value) as Hpos by lia.
    set (r := Z.abs value) in *. set (e := floor_log10 r) in *.
    destruct (digits_loop_positional (Z.to_nat e) r Hpos)
      as (rest & Hloop & Hlen & Hall & Hval).
    replace (Z.of_nat (Z.to_nat e)) with (Z.max 0 e) in * by lia.
    rewrite Hloop. split; [done|]. split; [lia|]. split.
    + intros _. now exists rest.
    + intros _ [Hlo Hup].
      assert (0 ≤ e) as He.
      { destruct (Z.lt_ge_cases e 0) as [Hneg|]; [|done]. exfalso.
        assert (10 ^ (e + 1) ≤ 1); [|lia].
        destruct (Z.eq_dec e (-1)) as [->|]; [done|].
        rewrite Z.pow_neg_r; lia. }
      rewrite Z.max_r in * by done.
      assert (0 < 10 ^ e) by (apply Z.pow_pos_nonneg; lia).
      assert (0 < r / 10 ^ e ≤ 9) as Hd.
      { split; [apply Z.div_str_pos; lia|].
        apply Z.lt_succ_r, Z.div_lt_upper_bound; [lia|].
        replace (e + 1) with (Z.succ e) in Hup by lia.
        rewrite Z.pow_succ_r in Hup by done. lia. }
      split; [constructor; [lia | done]|].
      eexists _, _. split; [done | lia].
Qed.

(** ** [_check_mine_at_position] *)

(** X2. The mine field is symmetric: changing the sign of either
    coordinate, or exchanging the two coordinates, does not change the
    answer of the oracle. *)
Theorem oracle_symmetric {platform : Log10} (x y : Z) :
  _check_mine_at_position (- x) y = _check_mine_at_position x y
  ∧ _check_mine_at_position x (- y) = _check_mine_at_position x y
  ∧ _check_mine_at_position y x = _check_mine_at_position x y.
Proof.
  rewrite check_mine_opp_x. split; [done|].
  rewrite !check_mine_sums, get_int_digits_opp. split; [done|].
  now rewrite Z.add_comm.
Qed.

(** X16. The program never answers safe where the digit-sum rule says
    mine, whatever the platform: rounding the logarithm can only add to
    the sum.  Where the logarithm of neither coordinate is rounded down,
    the program's answer is that of the rule. *)
Theorem oracle_never_below_rule {platform : Log10} (x y : Z) :
  (digitsum (Z.abs x) + digitsum (Z.abs y) > 23 →
   _check_mine_at_position x y = true)
  ∧ (x = 0 ∨ Z.abs x < 10 ^ (floor_log10 (Z.abs x) + 1) →
     y = 0 ∨ Z.abs y < 10 ^ (floor_log10 (Z.abs y) + 1) →
     _check_mine_at_position x y = true
     ↔ digitsum (Z.abs x) + digitsum (Z.abs y) > 23).
Proof.
  split.
  - intros Hrule. apply check_mine_ge. unfold is_mine_spec, THRESHOLD.
    apply Z.ltb_lt. lia.
  - intros Hx Hy. rewrite (check_mine_spec x y Hx Hy).
    unfold is_mine_spec, THRESHOLD. rewrite Z.ltb_lt. lia.
Qed.

(** X17. On an accurate platform the oracle follows the digit-sum rule
    for all coordinates of up to five digits: the cell is a mine exactly
    when the digits of [|x|] and of [|y|] add up to more than 23. *)
Theorem oracle_rule_five_digits {platform : Log10} {accurate : Accurate}
    (x y : Z) :
  Z.abs x < 100000 → Z.abs y < 100000 →
  _check_mine_at_position x y = true
  ↔ digitsum (Z.abs x) + digitsum (Z.abs y) > 23.
Proof.
  intros Hx Hy. rewrite (check_mine_accurate x y Hx Hy).
  unfold is_mine_spec, THRESHOLD. rewrite Z.ltb_lt. lia.
Qed.

Lemma oracle_rule_five_digits_witness :
  (_check_mine_at_position 345 789 = true
   ↔ digitsum (Z.abs 345) + digitsum (Z.abs 789) > 23)
  ∧ (_check_mine_at_position 23 34 = true
     ↔ digitsum (Z.abs 23) + digitsum (Z.abs 34) > 23)
  ∧ _check_mine_at_position 345 789 = true
  ∧ _check_mine_at_position 23 34 = false.
Proof.
  split; [apply (oracle_rule_five_digits 345 789); cbn; lia|].
  split; [apply (oracle_rule_five_digits 23 34); cbn; lia|].
  split; reflexivity.
Defined.

(** ** [_x_adjust] *)

(** X4. From a safe cell and with step 1 or -1 the walk of [_x_adjust]
    ends within 2000 cells: it returns the last safe cell before the first
    mine in the direction of the step. *)
Theorem x_adjust_walk_ends {platform : Log10} (fuel : nat) (x y step : Z) :
  safe_at y x → step = 1 ∨ step = -1 → (2000 ≤ fuel)%nat →
  ∃ r, _x_adjust fuel x y step = Returns r
       ∧ mine_at y (r + step)
       ∧ (∀ i, Z.min x r ≤ i ≤ Z.max x r → safe_at y i)
       ∧ Z.abs (r - x) < 2000.
Proof.
  intros Hsafe Hstep Hfuel. rewrite x_adjust_safe by done.
  destruct (count_search_total fuel y x step Hfuel Hstep) as [r Hr].
  exists r. split; [done|].
  destruct (count_search_inv _ _ _ _ _ Hr) as (k & Hk & -> & Hmine & Hfree).
  split; [done|].
  assert (∀ j : Z, 1 ≤ j ≤ Z.of_nat k → safe_at y (x + j * step)) as Hfree'.
  { intros j Hj. specialize (Hfree (Z.to_nat (j - 1)) ltac:(lia)).
    now replace (Z.of_nat (Z.to_nat (j - 1)) + 1) with j in Hfree by lia. }
  split.
  - intros i Hi. destruct (Z.eq_dec i x) as [-> | Hne]; [done|].
    destruct Hstep as [-> | ->].
    + replace i with (x + (i - x) * 1) by lia. apply Hfree'. lia.
    + replace i with (x + (x - i) * -1) by lia. apply Hfree'. lia.
  - assert (Z.of_nat k < 2000) as Hbound.
    { destruct (Z.lt_ge_cases (Z.of_nat k) 2000) as [? | Hge]; [done|]. exfalso.
      destruct Hstep as [-> | ->].
      - destruct (mine_ahead y x) as (k0 & Hk0 & Hm0).
        apply (mine_not_safe _ _ Hm0).
        replace (x + k0) with (x + k0 * 1) by lia. apply Hfree'. lia.
      - destruct (mine_behind y x) as (k0 & Hk0 & Hm0).
        apply (mine_not_safe _ _ Hm0).
        replace (x - k0) with (x + k0 * -1) by lia. apply Hfree'. lia. }
    destruct Hstep as [-> | ->]; lia.
Qed.

Lemma x_adjust_walk_ends_witness :
  ∃ r, _x_adjust 2000 0 0 1 = Returns r
       ∧ mine_at 0 (r + 1)
       ∧ (∀ i, Z.min 0 r ≤ i ≤ Z.max 0 r → safe_at 0 i)
       ∧ Z.abs (r - 0) < 2000.
Proof.
  apply x_adjust_walk_ends.
  - reflexivity.
  - left. reflexivity.
  - lia.
Defined.

(** ** [_normalize_line] *)

(** X5. When [_normalize_line] returns, the line it returns is on the same
    row and holds the line it was given; its right end is a mine, and its
    left end is a mine or has a mine to its left. *)
Theorem normalize_extends {platform : Log10} (fuel : nat) (l l' : Line) :
  _normalize_line fuel l = Returns l' →
  Line.y l' = Line.y l
  ∧ Line.x l' ≤ Line.x l
  ∧ Line.x l + Line.width l ≤ Line.x l' + Line.width l'
  ∧ mine_at (Line.y l') (Line.x l' + Line.width l')
  ∧ (mine_at (Line.y l') (Line.x l') ∨ mine_at (Line.y l') (Line.x l' - 1)).
Proof.
  intros Hn. pose proof (normalize_result_normalized _ _ _ Hn) as [Hleft Hright].
  apply normalize_inv in Hn as (Hy & Hl & Hr).
  destruct (edges_width _ _ _ _ _ Hl Hr) as [Hlo Hhi].
  split; [done|]. split; [done|]. split; [done|]. split; done.
Qed.

Lemma normalize_extends_witness :
  Line.y first_clump = Line.y (Line.mk 0 0 0)
  ∧ Line.x first_clump ≤ Line.x (Line.mk 0 0 0)
  ∧ Line.x (Line.mk 0 0 0) + Line.width (Line.mk 0 0 0)
    ≤ Line.x first_clump + Line.width first_clump
  ∧ mine_at (Line.y first_clump) (Line.x first_clump + Line.width first_clump)
  ∧ (mine_at (Line.y first_clump) (Line.x first_clump)
     ∨ mine_at (Line.y first_clump) (Line.x first_clump - 1)).
Proof.
  apply (normalize_extends 2000). vm_compute. reflexivity.
Defined.

(** X6. On a line of positive width whose cells are all safe, the
    normalizer returns the whole safe run of the row that holds the line:
    every cell of the result is safe and there is a mine just before its
    first cell and just after its last. *)
Theorem normalize_safe_line {platform : Log10} (fuel : nat) (l : Line) :
  0 < Line.width l →
  (∀ i, Line.x l ≤ i < Line.x l + Line.width l → safe_at (Line.y l) i) →
  (2000 ≤ fuel)%nat →
  ∃ l', _normalize_line fuel l = Returns l'
        ∧ Line.y l' = Line.y l
        ∧ cells l ⊆ cells l'
        ∧ (∀ i, Line.x l' ≤ i < Line.x l' + Line.width l' → safe_at (Line.y l') i)
        ∧ mine_at (Line.y l') (Line.x l' - 1)
        ∧ mine_at (Line.y l') (Line.x l' + Line.width l').
Proof.
  intros Hw Hsafe Hfuel.
  destruct (normalize_total fuel l Hfuel) as [l' Hl']. exists l'.
  split; [done|].
  destruct (normalize_of_run fuel l l' Hw Hsafe Hl')
    as (Hy & (_ & Hf & Hlm & Hrm) & Hlo & Hhi).
  split; [done|]. split; [|done].
  intros [col row] [-> Hcol]%elem_of_cells. apply elem_of_cells.
  split; [done | lia].
Qed.

Lemma normalize_safe_line_witness :
  ∃ l', _normalize_line 2000 (Line.mk 3 0 2) = Returns l'
        ∧ Line.y l' = Line.y (Line.mk 3 0 2)
        ∧ cells (Line.mk 3 0 2) ⊆ cells l'
        ∧ (∀ i, Line.x l' ≤ i < Line.x l' + Line.width l' → safe_at (Line.y l') i)
        ∧ mine_at (Line.y l') (Line.x l' - 1)
        ∧ mine_at (Line.y l') (Line.x l' + Line.width l').
Proof.
  apply normalize_safe_line.
  - cbn. lia.
  - cbn. intros i Hi.
    assert (i = 3 ∨ i = 4) as [-> | ->] by lia; reflexivity.
  - lia.
Defined.

(** ** [_find_safe_clumps_within_line] *)

(** X7. The scanner raises [IndexError] exactly on the spans of width 0 or
    less, and returns on every other span. *)
Theorem scanner_raises_on_empty_span {platform : Log10} (l : Line) :
  (Line.width l ≤ 0 ↔ _find_safe_clumps_within_line l = Raises IndexError)
  ∧ (0 < Line.width l ↔ ∃ cs, _find_safe_clumps_within_line l = Returns cs).
Proof.
  split; split.
  - apply scan_empty_span.
  - intros Hraise. destruct (Z.le_gt_cases (Line.width l) 0) as [? | Hpos]; [done|].
    rewrite scan_nonempty in Hraise by lia. discriminate Hraise.
  - intros Hw. rewrite scan_nonempty by done. eauto.
  - intros [cs Hcs]. now apply scan_returns_inv in Hcs as [? _].
Qed.

(** X8. The clumps the scanner returns are on the row of the span, have at
    least one cell, lie within the span, and come in ascending order of
    their columns. *)
Theorem scanner_clumps_ordered {platform : Log10} (l : Line) (cs : list Line) :
  _find_safe_clumps_within_line l = Returns cs →
  Forall (λ c, Line.y c = Line.y l ∧ 0 < Line.width c
               ∧ Line.x l ≤ Line.x c
               ∧ Line.x c + Line.width c ≤ Line.x l + Line.width l) cs
  ∧ ∀ (i j : nat) (c1 c2 : Line),
      (i < j)%nat → cs !! i = Some c1 → cs !! j = Some c2 →
      Line.x c1 + Line.width c1 < Line.x c2.
Proof.
  intros Hscan. split.
  - apply Forall_forall. intros c Hc.
    apply (scan_elem _ _ _ Hscan) in Hc as (Hy & (Ha & Hw & Hb) & _). done.
  - intros i j c1 c2 Hij Hi Hj.
    exact (StronglySorted_lookup_lt _ _ _ _ _ _ (scan_sorted _ _ Hscan) Hij Hi Hj).
Qed.

Lemma scanner_clumps_ordered_witness :
  Forall (λ c, Line.y c = Line.y (Line.mk 697 0 95) ∧ 0 < Line.width c
               ∧ Line.x (Line.mk 697 0 95) ≤ Line.x c
               ∧ Line.x c + Line.width c
                 ≤ Line.x (Line.mk 697 0 95) + Line.width (Line.mk 697 0 95))
    [Line.mk 697 0 2; Line.mk 700 0 89; Line.mk 790 0 2]
  ∧ ∀ (i j : nat) (c1 c2 : Line),
      (i < j)%nat →
      [Line.mk 697 0 2; Line.mk 700 0 89; Line.mk 790 0 2] !! i = Some c1 →
      [Line.mk 697 0 2; Line.mk 700 0 89; Line.mk 790 0 2] !! j = Some c2 →
      Line.x c1 + Line.width c1 < Line.x c2.
Proof.
  apply scanner_clumps_ordered. vm_compute. reflexivity.
Defined.

(** X9. On a span of positive width without a mine the scanner returns the
    span itself as its only clump; on a span of positive width without a
    safe cell it returns no clump. *)
Theorem scanner_uniform_span {platform : Log10} (l : Line) :
  0 < Line.width l →
  ((∀ i, Line.x l ≤ i < Line.x l + Line.width l → safe_at (Line.y l) i) →
   _find_safe_clumps_within_line l = Returns [l])
  ∧ ((∀ i, Line.x l ≤ i < Line.x l + Line.width l → mine_at (Line.y l) i) →
     _find_safe_clumps_within_line l = Returns []).
Proof.
  intros Hw. pose proof (scan_nonempty l Hw) as Hscan.
  set (cs := line_of_slice l <$> Np.ezclump 0 None (line_mask l)) in *.
  split.
  - intros Hsafe. rewrite Hscan. f_equal.
    assert (∀ c, c ∈ cs → c = l) as Hall.
    { intros c (Hy & (Ha & Hwc & Hb) & Hf & Hlo & Hhi)%(scan_elem _ _ _ Hscan).
      rewrite Hy in *.
      assert (Line.x c = Line.x l) as Hx.
      { destruct Hlo as [? | Hm]; [done|].
        destruct (Z.eq_dec (Line.x c) (Line.x l)); [done|].
        exfalso. apply (mine_not_safe _ _ Hm), Hsafe. lia. }
      assert (Line.x c + Line.width c = Line.x l + Line.width l) as He.
      { destruct Hhi as [? | Hm]; [done|].
        destruct (Z.eq_dec (Line.x c + Line.width c) (Line.x l + Line.width l));
          [done|].
        exfalso. apply (mine_not_safe _ _ Hm), Hsafe. lia. }
      destruct c, l; cbn in *. f_equal; lia. }
    assert (l ∈ cs) as Hl.
    { apply (scan_elem _ _ _ Hscan). split; [done|].
      unfold maximal_in. split; [lia|]. split; [done|]. split; now left. }
    pose proof (scan_sorted _ _ Hscan) as Hsorted.
    destruct cs as [|c1 [|c2 rest]].
    + now apply elem_of_nil in Hl.
    + f_equal. apply Hall. left.
    + exfalso.
      assert (c1 = l) as -> by (apply Hall; left).
      assert (c2 = l) as -> by (apply Hall; right; left).
      pose proof (StronglySorted_lookup_lt _ _ 0 1 l l Hsorted) as Hlt.
      cbn in Hlt. specialize (Hlt ltac:(lia) eq_refl eq_refl). lia.
  - intros Hmine. rewrite Hscan. f_equal.
    destruct cs as [|c rest] eqn:Hcs; [done|]. exfalso.
    assert (c ∈ cs) as Hc by (rewrite Hcs; left).
    rewrite <- Hcs in Hscan.
    apply (scan_elem _ _ _ Hscan) in Hc as (Hy & (Ha & Hwc & Hb) & Hf & _).
    rewrite Hy in *.
    apply (mine_not_safe (Line.y l) (Line.x c)); [apply Hmine | apply Hf]; lia.
Qed.

Lemma scanner_uniform_span_witness :
  _find_safe_clumps_within_line (Line.mk 0 0 5) = Returns [Line.mk 0 0 5]
  ∧ _find_safe_clumps_within_line (Line.mk 0 699 4) = Returns [].
Proof.
  split.
  - apply (scanner_uniform_span (Line.mk 0 0 5)); [cbn; lia|].
    cbn. intros i Hi.
    assert (i = 0 ∨ i = 1 ∨ i = 2 ∨ i = 3 ∨ i = 4) as Hcases by lia.
    destruct Hcases as [-> | [-> | [-> | [-> | ->]]]]; reflexivity.
  - apply (scanner_uniform_span (Line.mk 0 699 4)); [cbn; lia|].
    cbn. intros i Hi. apply heavy_row. now vm_compute.
Defined.

(** ** [_find_safe_clumps] *)

Lemma scan_parallel_no_raise {platform : Log10}
    (fuel : nat) (c : Line) (y_offset : Z) (e : exn) :
  0 < Line.width c → scan_parallel fuel c y_offset ≠ Raises e.
Proof.
  intros Hw. unfold scan_parallel.
  destruct (_normalize_line fuel
              (Line.mk (Line.x c) (Line.y c + y_offset) (Line.width c)))
    as [p| e' |] eqn:Hp; cbn [mbind outcome_bind]; [| |done].
  - apply normalize_parallel in Hp as (_ & _ & Hl & Hr).
    destruct (edges_width _ _ _ _ _ Hl Hr).
    now rewrite scan_nonempty by lia.
  - now apply normalize_no_raise in Hp.
Qed.

Lemma find_safe_clumps_no_raise {platform : Log10}
    (fuel : nat) (c : Line) (e : exn) :
  0 < Line.width c → _find_safe_clumps fuel c ≠ Raises e.
Proof.
  intros Hw. unfold _find_safe_clumps. change (range3 (-1) 3 2) with [-1; 1].
  change (mapM _ [-1; 1]) with (mapM (scan_parallel fuel c) [-1; 1]).
  cbn [mapM].
  destruct (scan_parallel fuel c (-1)) as [above| e' |] eqn:Ha;
    cbn [mbind outcome_bind]; [|now apply scan_parallel_no_raise in Ha | done].
  destruct (scan_parallel fuel c 1) as [below| e' |] eqn:Hb;
    cbn [mbind outcome_bind]; [done | now apply scan_parallel_no_raise in Hb | done].
Qed.

(** X10. For a line of positive width, [_find_safe_clumps] never raises,
    and returns when given 2000 steps of fuel; what it returns are exactly
    the maximal safe runs of the row above and of the row below that have
    a cell in a column of the line or in the column just right of it (and
    not those that only reach the column just left of it). *)
Theorem find_safe_clumps_neighbours {platform : Log10} (fuel : nat) (c : Line) :
  0 < Line.width c →
  (∀ e, _find_safe_clumps fuel c ≠ Raises e)
  ∧ (∃ found, _find_safe_clumps (2000 + fuel) c = Returns found)
  ∧ ∀ found c',
      _find_safe_clumps fuel c = Returns found →
      c' ∈ found
      ↔ (Line.y c' = Line.y c - 1 ∨ Line.y c' = Line.y c + 1)
        ∧ maximal_run c'
        ∧ Line.x c' ≤ Line.x c + Line.width c
        ∧ Line.x c < Line.x c' + Line.width c'.
Proof.
  intros Hw. split; [intros e; now apply find_safe_clumps_no_raise|].
  split; [apply find_safe_clumps_total; [lia | done]|].
  intros found c' Hfound.
  rewrite (find_safe_clumps_elem fuel c found c' Hw Hfound).
  unfold neighbour_of. split.
  - intros [(Hy & Hrun & Hhi & Hlo) | (Hy & Hrun & Hhi & Hlo)];
      (split; [lia|]); done.
  - intros ([Hy | Hy] & Hrun & Hhi & Hlo); [left | right];
      (split; [lia|]); done.
Qed.

Lemma find_safe_clumps_neighbours_witness :
  (∀ e, _find_safe_clumps 2000 (Line.mk 0 0 1) ≠ Raises e)
  ∧ (∃ found, _find_safe_clumps (2000 + 2000) (Line.mk 0 0 1) = Returns found)
  ∧ ∀ found c',
      _find_safe_clumps 2000 (Line.mk 0 0 1) = Returns found →
      c' ∈ found
      ↔ (Line.y c' = Line.y (Line.mk 0 0 1) - 1
         ∨ Line.y c' = Line.y (Line.mk 0 0 1) + 1)
        ∧ maximal_run c'
        ∧ Line.x c' ≤ Line.x (Line.mk 0 0 1) + Line.width (Line.mk 0 0 1)
        ∧ Line.x (Line.mk 0 0 1) < Line.x c' + Line.width c'.
Proof.
  apply (find_safe_clumps_neighbours 2000 (Line.mk 0 0 1)). cbn. lia.
Defined.

(** ** [main] *)

(** X11. Every clump of the unprocessed and of the processed set is a
    maximal run of safe cells between two mines of its row (the comment of
    [main]: a clump is contiguous space between 2 mines), and lies within
    the columns and rows -698 to 698.  The platform is accurate. *)
Theorem clumps_are_runs_in_window {platform : Log10} {accurate : Accurate}
    (s : state) (c : Line) :
  reachable s → c ∈ unprocessed_clumps s ∪ processed_clumps s →
  maximal_run c
  ∧ (-698 ≤ Line.y c ≤ 698)
  ∧ -698 ≤ Line.x c ∧ Line.x c + Line.width c - 1 ≤ 698.
Proof.
  intros Hinv%reachable_invariant Hc.
  split; [now apply (inv_runs _ Hinv)|].
  destruct (connected_in_window c (inv_connected _ Hinv c Hc)) as (Hy & Hx & He).
  split; [done|]. lia.
Qed.

Lemma clumps_are_runs_in_window_witness :
  maximal_run first_clump
  ∧ (-698 ≤ Line.y first_clump ≤ 698)
  ∧ -698 ≤ Line.x first_clump
  ∧ Line.x first_clump + Line.width first_clump - 1 ≤ 698.
Proof.
  apply (clumps_are_runs_in_window (initial first_clump)).
  - apply (reachable_initial 2000). vm_compute. reflexivity.
  - change (first_clump ∈ ({[ first_clump ]} : gset Line) ∪ ∅).
    apply elem_of_union. left. apply elem_of_singleton. reflexivity.
Defined.

(** X12. No iteration of the loop fails: for every clump the loop can
    pick, [_find_safe_clumps] raises neither the assertion of [_x_adjust]
    nor the [IndexError] of an empty span, and returns when given 2000
    steps of fuel; so inside the loop there is always a next state.
    The platform is accurate. *)
Theorem driver_iteration_never_fails {platform : Log10} {accurate : Accurate}
    (s : state) (clump : Line) (fuel : nat) :
  reachable s → clump ∈ unprocessed_clumps s →
  (∀ e, _find_safe_clumps fuel clump ≠ Raises e)
  ∧ (∃ found, _find_safe_clumps (2000 + fuel) clump = Returns found)
  ∧ ∃ s', step s s'.
Proof.
  intros Hreach Hclump.
  pose proof (reachable_invariant s Hreach) as Hinv.
  assert (0 < Line.width clump) as Hw
    by (apply (inv_runs _ Hinv), elem_of_union; now left).
  split; [intros e; now apply find_safe_clumps_no_raise|].
  split; [apply find_safe_clumps_total; [lia | done]|].
  apply progress; [done|].
  destruct (exited s) eqn:Hex; [|done].
  pose proof (inv_stdout _ Hinv) as Hout. rewrite Hex in Hout.
  destruct Hout as [HU _]. rewrite HU in Hclump.
  now apply elem_of_empty in Hclump.
Qed.

Lemma driver_iteration_never_fails_witness :
  (∀ e, _find_safe_clumps 0 first_clump ≠ Raises e)
  ∧ (∃ found, _find_safe_clumps (2000 + 0) first_clump = Returns found)
  ∧ ∃ s', step (initial first_clump) s'.
Proof.
  apply (driver_iteration_never_fails (initial first_clump)).
  - apply (reachable_initial 2000). vm_compute. reflexivity.
  - change (first_clump ∈ ({[ first_clump ]} : gset Line)).
    apply elem_of_singleton. reflexivity.
Defined.

(** X13. The loop terminates: from every state [main] can be in, every
    sequence of iterations is finite, and the exit can be reached.
    The platform is accurate. *)
Theorem driver_terminates {platform : Log10} {accurate : Accurate} (s : state) :
  reachable s →
  Acc (flip step) s
  ∧ ∃ s', rtc step s s' ∧ reachable s' ∧ exited s' = true.
Proof.
  intros Hreach. split.
  - now apply executions_finite.
  - now apply reaches_exit.
Qed.

Lemma driver_terminates_witness :
  Acc (flip step) (initial first_clump)
  ∧ ∃ s', rtc step (initial first_clump) s' ∧ reachable s' ∧ exited s' = true.
Proof.
  apply driver_terminates.
  apply (reachable_initial 2000). vm_compute. reflexivity.
Defined.

(** ** What [main] counts *)

Section Region.
Context {platform : Log10} {accurate : Accurate}.

Lemma region_safe (p : Z * Z) : region p → safe_at p.2 p.1.
Proof. induction 1 as [|p q _ _ _ Hsafe]; [reflexivity | done]. Qed.

(** Along safe cells of a row the region goes on. *)
Lemma region_along_row (row a b : Z) :
  region (a, row) →
  (∀ i, Z.min a b ≤ i ≤ Z.max a b → safe_at row i) →
  region (b, row).
Proof.
  intros Ha. remember (Z.to_nat (Z.abs (b - a))) as n eqn:Hn.
  revert b Hn. induction n as [|n IH]; intros b Hn Hsafe.
  - now replace b with a by lia.
  - destruct (Z.lt_ge_cases a b) as [Hlt | Hge].
    + apply (region_step (b - 1, row)).
      * apply IH; [lia|]. intros i Hi. apply Hsafe. lia.
      * left. cbn. split; [done | left; lia].
      * cbn. apply Hsafe. lia.
    + apply (region_step (b + 1, row)).
      * apply IH; [lia|]. intros i Hi. apply Hsafe. lia.
      * left. cbn. split; [done | right; lia].
      * cbn. apply Hsafe. lia.
Qed.

(** A clump found from a maximal run has a cell right above or right
    below a cell of that run: no clump is found through a corner only. *)
Lemma neighbours_share_column (c c' : Line) :
  maximal_run c → neighbours c c' →
  ∃ col, Line.x c ≤ col < Line.x c + Line.width c
         ∧ Line.x c' ≤ col < Line.x c' + Line.width c'
         ∧ (Line.y c' = Line.y c + 1 ∨ Line.y c' = Line.y c - 1).
Proof.
  intros (Hw & Hf & Hlm & Hrm) Hn.
  assert (maximal_run c'
          ∧ (Line.y c' = Line.y c + 1 ∨ Line.y c' = Line.y c - 1)
          ∧ Line.x c' ≤ Line.x c + Line.width c
          ∧ Line.x c < Line.x c' + Line.width c')
    as ((Hw' & Hf' & Hlm' & Hrm') & Hrow & Hhi & Hlo)
    by (destruct Hn as [(? & ? & ? & ?) | (? & ? & ? & ?)];
        (split; [done|]); (split; [lia|]); done).
  destruct (Z.eq_dec (Line.x c') (Line.x c + Line.width c)) as [Heq | Hne].
  - exfalso.
    apply (no_crossing (Line.y c) (Line.y c')
             (Line.x c + Line.width c) (Line.x c + Line.width c - 1)).
    + done.
    + apply Hf. lia.
    + rewrite <- Heq. apply Hf'. lia.
    + now rewrite <- Heq.
  - exists (Z.max (Line.x c) (Line.x c')). split; [lia|]. split; [lia | done].
Qed.

Lemma connected_run (c : Line) : connected c → maximal_run c.
Proof.
  induction 1 as [|c c' _ _ Hn]; [apply first_clump_run|].
  now apply (neighbours_run c).
Qed.

Lemma connected_region (c : Line) (col : Z) :
  connected c → Line.x c ≤ col < Line.x c + Line.width c →
  region (col, Line.y c).
Proof.
  intros Hconn. revert col. induction Hconn as [|c c' Hconn IH Hn]; intros col Hcol.
  - destruct first_clump_run as (_ & Hf & _).
    apply (region_along_row _ 0); [constructor|].
    intros i Hi. apply Hf. cbn in *. lia.
  - pose proof (connected_run c Hconn) as Hrun.
    pose proof (neighbours_run c c' Hn) as (_ & Hf' & _).
    destruct (neighbours_share_column c c' Hrun Hn) as (m & Hm & Hm' & Hrow).
    apply (region_along_row _ m).
    + apply (region_step (m, Line.y c)).
      * now apply IH.
      * right. cbn. split; [done | lia].
      * cbn. now apply Hf'.
    + intros i Hi. apply Hf'. lia.
Qed.

(** Every safe cell lies in a maximal run of its row. *)
Lemma run_around (row col : Z) :
  safe_at row col →
  ∃ c, Line.y c = row ∧ maximal_run c
       ∧ Line.x c ≤ col < Line.x c + Line.width c.
Proof.
  intros Hsafe.
  destruct (containing_run row (col - 2000) (col + 2000) col)
    as (c & Hy & ((Ha & Hw & Hb) & Hf & Hlo & Hhi) & Hc); [lia | done |].
  rewrite Hy in *. exists c. split; [done|]. split; [|done].
  unfold maximal_run. rewrite Hy. split; [done|]. split; [done|]. split.
  - destruct Hlo as [Heq | ?]; [|done]. exfalso.
    destruct (mine_behind row col) as (k & Hk & Hm).
    apply (mine_not_safe _ _ Hm), Hf. lia.
  - destruct Hhi as [Heq | ?]; [|done]. exfalso.
    destruct (mine_ahead row col) as (k & Hk & Hm).
    apply (mine_not_safe _ _ Hm), Hf. lia.
Qed.

Lemma region_processed (s : state) (p : Z * Z) :
  invariant s → unprocessed_clumps s = ∅ → region p →
  ∃ c, c ∈ processed_clumps s ∧ p ∈ cells c.
Proof.
  intros [_ Hruns _ Hfirst Hclosed _] HU. rewrite HU in *.
  assert (∀ c, c ∈ (∅ : gset Line) ∪ processed_clumps s → c ∈ processed_clumps s)
    as Hin by (intros c [[]%elem_of_empty | ?]%elem_of_union; done).
  induction 1 as [|[pc pr] [qc qr] _ (c & Hc & [-> Hpc]%elem_of_cells) Hadj Hsafe].
  - exists first_clump. split; [now apply Hin|].
    apply elem_of_cells. cbn. lia.
  - unfold adjacent in Hadj. cbn in Hadj, Hsafe.
    assert (maximal_run c) as (Hw & Hf & Hlm & Hrm)
      by (apply Hruns, elem_of_union; now right).
    destruct Hadj as [[-> Hcol] | [-> Hrow]].
    + exists c. split; [done|]. apply elem_of_cells. split; [done|].
      destruct Hcol as [-> | ->].
      * destruct (Z.eq_dec (pc + 1) (Line.x c + Line.width c)) as [Heq | ?]; [|lia].
        rewrite Heq in Hsafe. now destruct (mine_not_safe _ _ Hrm).
      * destruct (Z.eq_dec (pc - 1) (Line.x c - 1)) as [Heq | ?]; [|lia].
        rewrite Heq in Hsafe. now destruct (mine_not_safe _ _ Hlm).
    + destruct (run_around qr pc Hsafe) as (c' & Hy' & Hrun' & Hc').
      exists c'. split; [|apply elem_of_cells; done].
      apply Hin, (Hclosed c c' Hc). unfold neighbours, neighbour_of.
      destruct Hrow as [-> | ->]; [right | left];
        (split; [lia|]); (split; [done|]); lia.
Qed.

End Region.

(** X14. What the flood fill counts: every cell of a clump the driver
    knows belongs to the safe region of the origin, and at the exit the
    cells of the processed clumps are exactly the cells of that region
    (the safe cells reached from the origin by steps along rows and
    columns, none of them a mine), so the number printed is the number of
    cells of the region.  The platform is accurate. *)
Theorem flood_fill_counts_region {platform : Log10} {accurate : Accurate}
    (s : state) :
  reachable s →
  (∀ c p, c ∈ unprocessed_clumps s ∪ processed_clumps s → p ∈ cells c →
          region p ∧ safe_at p.2 p.1)
  ∧ (exited s = true →
     (∀ p, p ∈ covered (processed_clumps s) ↔ region p)
     ∧ stdout s
       = [pretty (Z.of_nat (size (covered (processed_clumps s)))) +:+ LF]).
Proof.
  intros Hreach. pose proof (reachable_invariant s Hreach) as Hinv.
  assert (∀ c p, c ∈ unprocessed_clumps s ∪ processed_clumps s → p ∈ cells c →
                 region p) as Hsound.
  { intros c [col row] Hc [-> Hcol]%elem_of_cells.
    apply connected_region; [|done]. now apply (inv_connected _ Hinv). }
  split.
  - intros c p Hc Hp. split; [now apply (Hsound c)|].
    apply region_safe. now apply (Hsound c).
  - intros Hex. pose proof (inv_stdout _ Hinv) as Hout. rewrite Hex in Hout.
    destruct Hout as [HU Hout]. split.
    + intros p. rewrite elem_of_covered. split.
      * intros (c & Hc & Hp). apply (Hsound c); [|done].
        apply elem_of_union. now right.
      * now apply region_processed.
    + rewrite Hout. unfold print. cbn [app].
      rewrite (sum_widths_counts_cells (processed_clumps s)); [done|].
      intros c Hc. apply (inv_runs _ Hinv), elem_of_union. now right.
Qed.

Lemma flood_fill_counts_region_witness :
  ∃ s, reachable s ∧ exited s = true
       ∧ (∀ c p, c ∈ unprocessed_clumps s ∪ processed_clumps s → p ∈ cells c →
                 region p ∧ safe_at p.2 p.1)
       ∧ (∀ p, p ∈ covered (processed_clumps s) ↔ region p)
       ∧ stdout s
         = [pretty (Z.of_nat (size (covered (processed_clumps s)))) +:+ LF].
Proof.
  destruct (reaches_exit (initial first_clump) initial_reachable)
    as (s & _ & Hr & He).
  exists s. do 2 (split; [done|]).
  destruct (flood_fill_counts_region s Hr) as [Hsound Hexit].
  split; [exact Hsound | exact (Hexit He)].
Defined.

(** ** How often [main] iterates *)

Section Iterations.
Context {platform : Log10} {accurate : Accurate}.

Lemma nsteps_reachable (n : nat) (s0 s : state) :
  reachable s0 → nsteps step n s0 s → reachable s.
Proof.
  intros Hreach Hsteps. induction Hsteps as [|n s0 s1 s Hstep _ IH]; [done|].
  apply IH. now apply (reachable_step s0).
Qed.

Lemma step_counts_one (s s' : state) :
  invariant s → step s s' →
  (size (processed_clumps s') + (if exited s' then 1 else 0)
   = S (size (processed_clumps s) + (if exited s then 1 else 0)))%nat.
Proof.
  intros Hinv Hstep.
  destruct Hstep as [U P out clump fuel found Hin Hfound | U P out Hsize];
    cbn [unprocessed_clumps processed_clumps stdout exited].
  - rewrite loop_body_processed, size_union, size_singleton; [lia|].
    apply elem_of_disjoint. intros c Hc ->%elem_of_singleton.
    now apply (inv_disjoint _ Hinv clump).
  - lia.
Qed.

End Iterations.

(** X15. No clump is processed twice: after [n] steps of the loop from the
    start (iterations, and the exit once the unprocessed set is empty) the
    processed set holds exactly [n] clumps, one less once the loop has
    been left; so the loop runs once for every clump of the final set.
    The platform is accurate. *)
Theorem iterations_count_processed {platform : Log10} {accurate : Accurate}
    (n : nat) (s : state) :
  nsteps step n (initial first_clump) s →
  (size (processed_clumps s) + (if exited s then 1 else 0) = n)%nat.
Proof.
  revert s. induction n as [|n IH]; intros s Hsteps.
  - inversion Hsteps; subst.
    cbn [initial processed_clumps exited]. rewrite size_empty. lia.
  - apply nsteps_inv_r in Hsteps as (s1 & Hsteps & Hstep).
    pose proof (nsteps_reachable n _ s1 initial_reachable Hsteps) as Hreach.
    rewrite (step_counts_one s1 s (reachable_invariant s1 Hreach) Hstep).
    now rewrite (IH s1 Hsteps).
Qed.

Lemma iterations_count_processed_witness :
  (size (processed_clumps
           (State (loop_body {[ first_clump ]} ∅ first_clump first_found).1
                  (loop_body {[ first_clump ]} ∅ first_clump first_found).2
                  [] false))
   + 0 = 1)%nat.
Proof.
  apply (iterations_count_processed 1
           (State (loop_body {[ first_clump ]} ∅ first_clump first_found).1
                  (loop_body {[ first_clump ]} ∅ first_clump first_found).2
                  [] false)).
  apply nsteps_once.
  apply (step_iteration _ _ _ first_clump 2000 first_found).
  - apply elem_of_singleton. reflexivity.
  - vm_compute. reflexivity.
Defined.
